(** * llir/l: memory instructions and functions of the IR package

    A shallow embedding of [ir/function.go] and of the memory
    instructions (alloca, load, store, fence, cmpxchg, atomicrmw,
    getelementptr), followed by the properties of type inference,
    identifier numbering and textual emission. *)

From Stdlib Require Import ZArith Ascii String List Bool Lia.
From stdpp Require Import base option list gmap strings pretty.

Set Warnings "-register-all".

Local Open Scope Z_scope.
Local Open Scope string_scope.
Local Open Scope list_scope.

(** ** Package [types] *)

Module types.

(** Modelled from the spec: the package [types] is not among the sources.
    The spec names void, integer, pointer, struct and function types, a
    pointer constructor, a struct constructor and an equality test; [Type_]
    stands for the Go interface [types.Type] holding a type (a nil
    interface is [None] where the code tests for it). *)
Inductive Type_ : Type :=
  | Void
  | Int (BitSize : N)
  | Pointer (ElemType : Type_) (AddrSpace : N)
  | Struct (Fields : list Type_)
  | Func (RetType : Type_) (Params : list Type_) (Variadic : bool).

(** The concrete pointer type. *)
Record PointerType := mkPointerType { ElemType : Type_; AddrSpace : N }.

(** The concrete struct type. *)
Record StructType := mkStructType { Fields : list Type_ }.

(** The concrete function type (a signature). *)
Record FuncType := mkFuncType
  { RetType : Type_; Params : list Type_; Variadic : bool }.

(** Storing a concrete type in a [types.Type] interface value. *)
Definition of_PointerType (p : PointerType) : Type_ :=
  Pointer (ElemType p) (AddrSpace p).

Definition of_StructType (s : StructType) : Type_ := Struct (Fields s).

Definition of_FuncType (s : FuncType) : Type_ :=
  Func (RetType s) (Params s) (Variadic s).

(** The type assertion of a [types.Type] to a pointer type. *)
Definition as_PointerType (t : Type_) : option PointerType :=
  match t with
  | Pointer e a => Some (mkPointerType e a)
  | _ => None
  end.

(** [types.I1]. *)
Definition I1 : Type_ := Int 1.

(** [types.NewPointer]: the address space is the default one. *)
Definition NewPointer (elem : Type_) : PointerType := mkPointerType elem 0.

(** [types.NewStruct]. *)
Definition NewStruct (fields : list Type_) : StructType := mkStructType fields.

(** [t.Equal(u)]: structural equality. *)
Fixpoint Equal (t u : Type_) {struct t} : bool :=
  let fix all2 (ts us : list Type_) {struct ts} : bool :=
    match ts, us with
    | [], [] => true
    | t' :: ts', u' :: us' => Equal t' u' && all2 ts' us'
    | _, _ => false
    end in
  match t, u with
  | Void, Void => true
  | Int n, Int m => N.eqb n m
  | Pointer e a, Pointer e' a' => Equal e e' && N.eqb a a'
  | Struct fs, Struct gs => all2 fs gs
  | Func r ps v, Func r' ps' v' => Equal r r' && all2 ps ps' && Bool.eqb v v'
  | _, _ => false
  end.

(** The dynamic type name that the verb [%T] prints. *)
Definition GoTypeName (t : Type_) : string :=
  match t with
  | Void => "*types.VoidType"
  | Int _ => "*types.IntType"
  | Pointer _ _ => "*types.PointerType"
  | Struct _ => "*types.StructType"
  | Func _ _ _ => "*types.FuncType"
  end.

End types.

(** ** Package [value] *)

Module value.

(** The interface [value.Value], as the table of its methods: an operand
    is known to an instruction through the type and the identifier it
    reports. *)
Record Value := mkValue
  { Type_ : types.Type_;
    Ident : string;
    String : string }.

End value.

(** ** Package [enum] *)

Module enum.

(** Modelled from the spec: the package [enum] is not among the sources.
    The linkage kinds are those of the assembly language, [LinkageNone]
    being the zero value. *)
Inductive Linkage : Set :=
  | LinkageNone
  | LinkageAppending
  | LinkageAvailableExternally
  | LinkageCommon
  | LinkageInternal
  | LinkageLinkOnce
  | LinkageLinkOnceODR
  | LinkagePrivate
  | LinkageWeak
  | LinkageWeakODR
  | LinkageExternal
  | LinkageExternWeak.

#[global] Instance Linkage_eq_dec : EqDecision Linkage.
Proof. solve_decision. Defined.

(** The remaining enumerations are unsigned integers whose zero value
    means that the attribute is not present. *)
Abbreviation AtomicOrdering := N (only parsing).
Abbreviation AtomicOp := N (only parsing).
Abbreviation Preemption := N (only parsing).
Abbreviation Visibility := N (only parsing).
Abbreviation DLLStorageClass := N (only parsing).
Abbreviation CallingConv := N (only parsing).
Abbreviation UnnamedAddr := N (only parsing).
Abbreviation ReturnAttribute := N (only parsing).
Abbreviation FuncAttribute := N (only parsing).

Definition PreemptionNone : N := 0%N.
Definition VisibilityNone : N := 0%N.
Definition DLLStorageClassNone : N := 0%N.
Definition CallingConvNone : N := 0%N.
Definition UnnamedAddrNone : N := 0%N.

End enum.

(** ** Panics *)

(** A call either returns or panics with a value. *)
Inductive result (A : Type) : Type :=
  | Ok (a : A)
  | Panic (v : string).

Arguments Ok {A} a.
Arguments Panic {A} v.

(** ** Memory instructions *)

(** Each accessor [Type_] returns the type together with the instruction
    after the call: the receiver is a pointer and the cache field [Typ]
    is written through it. *)

Module InstAlloca.

Record t := mk
  { LocalName : string;
    ElemType : types.Type_;
    NElems : option value.Value;
    Typ : option types.PointerType;
    InAlloca : bool;
    SwiftError : bool;
    Alignment : Z }.

Definition set_Typ (ty : option types.PointerType) (inst : t) : t :=
  mk (LocalName inst) (ElemType inst) (NElems inst) ty
     (InAlloca inst) (SwiftError inst) (Alignment inst).

Definition Type_ (inst : t) : result (types.Type_ * t) :=
  match Typ inst with
  | None =>
      let ty := types.NewPointer (ElemType inst) in
      Ok (types.of_PointerType ty, set_Typ (Some ty) inst)
  | Some ty => Ok (types.of_PointerType ty, inst)
  end.

Definition Name (inst : t) : string := LocalName inst.

Definition SetName (name : string) (inst : t) : t :=
  mk name (ElemType inst) (NElems inst) (Typ inst)
     (InAlloca inst) (SwiftError inst) (Alignment inst).

End InstAlloca.

Definition NewAlloca (elemType : types.Type_) : InstAlloca.t :=
  InstAlloca.mk "" elemType None None false false 0.

Module InstLoad.

Record t := mk
  { LocalName : string;
    Src : value.Value;
    Typ : option types.Type_;
    Atomic : bool;
    Volatile : bool;
    SyncScope : string;
    Ordering : enum.AtomicOrdering;
    Alignment : Z }.

Definition set_Typ (ty : option types.Type_) (inst : t) : t :=
  mk (LocalName inst) (Src inst) ty (Atomic inst) (Volatile inst)
     (SyncScope inst) (Ordering inst) (Alignment inst).

Definition set_Src (src : value.Value) (inst : t) : t :=
  mk (LocalName inst) src (Typ inst) (Atomic inst) (Volatile inst)
     (SyncScope inst) (Ordering inst) (Alignment inst).

Definition Type_ (inst : t) : result (types.Type_ * t) :=
  match Typ inst with
  | None =>
      match types.as_PointerType (value.Type_ (Src inst)) with
      | None =>
          Panic ("invalid source type; expected *types.PointerType, got "
                 +:+ types.GoTypeName (value.Type_ (Src inst)))
      | Some p =>
          Ok (types.ElemType p, set_Typ (Some (types.ElemType p)) inst)
      end
  | Some ty => Ok (ty, inst)
  end.

Definition Name (inst : t) : string := LocalName inst.

Definition SetName (name : string) (inst : t) : t :=
  mk name (Src inst) (Typ inst) (Atomic inst) (Volatile inst)
     (SyncScope inst) (Ordering inst) (Alignment inst).

End InstLoad.

Definition NewLoad (src : value.Value) : InstLoad.t :=
  InstLoad.mk "" src None false false "" 0%N 0.

Module InstStore.

Record t := mk
  { Src : value.Value;
    Dst : value.Value;
    Atomic : bool;
    Volatile : bool;
    SyncScope : string;
    Ordering : enum.AtomicOrdering;
    Alignment : Z }.

End InstStore.

Definition NewStore (src dst : value.Value) : InstStore.t :=
  InstStore.mk src dst false false "" 0%N 0.

Module InstFence.

Record t := mk
  { Ordering : enum.AtomicOrdering;
    SyncScope : string }.

End InstFence.

Definition NewFence (ordering : enum.AtomicOrdering) : InstFence.t :=
  InstFence.mk ordering "".

Module InstCmpXchg.

Record t := mk
  { LocalName : string;
    Ptr : value.Value;
    Cmp : value.Value;
    New : value.Value;
    Success : enum.AtomicOrdering;
    Failure : enum.AtomicOrdering;
    Typ : option types.StructType;
    Weak : bool;
    Volatile : bool;
    SyncScope : string }.

Definition set_Typ (ty : option types.StructType) (inst : t) : t :=
  mk (LocalName inst) (Ptr inst) (Cmp inst) (New inst) (Success inst)
     (Failure inst) ty (Weak inst) (Volatile inst) (SyncScope inst).

Definition set_New (new : value.Value) (inst : t) : t :=
  mk (LocalName inst) (Ptr inst) (Cmp inst) new (Success inst)
     (Failure inst) (Typ inst) (Weak inst) (Volatile inst) (SyncScope inst).

Definition Type_ (inst : t) : result (types.Type_ * t) :=
  match Typ inst with
  | None =>
      let oldType := value.Type_ (New inst) in
      let ty := types.NewStruct [oldType; types.I1] in
      Ok (types.of_StructType ty, set_Typ (Some ty) inst)
  | Some ty => Ok (types.of_StructType ty, inst)
  end.

Definition Name (inst : t) : string := LocalName inst.

Definition SetName (name : string) (inst : t) : t :=
  mk name (Ptr inst) (Cmp inst) (New inst) (Success inst)
     (Failure inst) (Typ inst) (Weak inst) (Volatile inst) (SyncScope inst).

End InstCmpXchg.

Definition NewCmpXchg (ptr cmp new : value.Value)
    (success failure : enum.AtomicOrdering) : InstCmpXchg.t :=
  InstCmpXchg.mk "" ptr cmp new success failure None false false "".

Module InstAtomicRMW.

Record t := mk
  { LocalName : string;
    Op : enum.AtomicOp;
    Dst : value.Value;
    X : value.Value;
    Ordering : enum.AtomicOrdering;
    Typ : option types.Type_;
    Volatile : bool;
    SyncScope : string }.

Definition set_Typ (ty : option types.Type_) (inst : t) : t :=
  mk (LocalName inst) (Op inst) (Dst inst) (X inst) (Ordering inst) ty
     (Volatile inst) (SyncScope inst).

Definition set_Dst (dst : value.Value) (inst : t) : t :=
  mk (LocalName inst) (Op inst) dst (X inst) (Ordering inst) (Typ inst)
     (Volatile inst) (SyncScope inst).

Definition Type_ (inst : t) : result (types.Type_ * t) :=
  match Typ inst with
  | None =>
      match types.as_PointerType (value.Type_ (Dst inst)) with
      | None =>
          Panic ("invalid destination type; expected *types.PointerType, got "
                 +:+ types.GoTypeName (value.Type_ (Dst inst)))
      | Some p =>
          Ok (types.ElemType p, set_Typ (Some (types.ElemType p)) inst)
      end
  | Some ty => Ok (ty, inst)
  end.

Definition Name (inst : t) : string := LocalName inst.

Definition SetName (name : string) (inst : t) : t :=
  mk name (Op inst) (Dst inst) (X inst) (Ordering inst) (Typ inst)
     (Volatile inst) (SyncScope inst).

End InstAtomicRMW.

Definition NewAtomicRMW (op : enum.AtomicOp) (dst x : value.Value)
    (ordering : enum.AtomicOrdering) : InstAtomicRMW.t :=
  InstAtomicRMW.mk "" op dst x ordering None false "".

Module InstGetElementPtr.

Record t := mk
  { LocalName : string;
    ElemType : types.Type_;
    Src : value.Value;
    Indices : list value.Value;
    Typ : option types.Type_;
    InBounds : bool }.

Definition set_Typ (ty : option types.Type_) (inst : t) : t :=
  mk (LocalName inst) (ElemType inst) (Src inst) (Indices inst) ty
     (InBounds inst).

Definition Type_ (inst : t) : result (types.Type_ * t) :=
  match Typ inst with
  | None =>
      let ty := types.of_PointerType (types.NewPointer (ElemType inst)) in
      Ok (ty, set_Typ (Some ty) inst)
  | Some ty => Ok (ty, inst)
  end.

Definition Name (inst : t) : string := LocalName inst.

Definition SetName (name : string) (inst : t) : t :=
  mk name (ElemType inst) (Src inst) (Indices inst) (Typ inst)
     (InBounds inst).

End InstGetElementPtr.

Definition NewGetElementPtr (elemType : types.Type_) (src : value.Value)
    (indices : list value.Value) : InstGetElementPtr.t :=
  InstGetElementPtr.mk "" elemType src indices None false.

(** ** Named entities of a function body *)

(** Parameters, basic blocks, instructions and terminators are reached
    through pointers, and [SetName] writes through them.  The store maps
    the address of a named entity to its [LocalName] field; an address
    without an entry carries the empty name.  Two occurrences of one
    address are two references to one entity. *)
Abbreviation addr := positive (only parsing).

Definition Name (σ : gmap positive string) (a : addr) : string :=
  default "" (σ !! a).

Definition SetName (a : addr) (name : string) (σ : gmap positive string)
    : gmap positive string :=
  <[a := name]> σ.

(** The values of the interface [Instruction].  An instruction with a
    result carries its address and the type that its accessor [Type]
    reports; a store and a fence have no result.  Modelled from the
    spec: [InstCall] and the terminators are not among the sources. *)
Inductive Instruction : Type :=
  | Inst_Alloca (a : addr) (Typ : types.Type_)
  | Inst_Load (a : addr) (Typ : types.Type_)
  | Inst_Store
  | Inst_Fence
  | Inst_CmpXchg (a : addr) (Typ : types.Type_)
  | Inst_AtomicRMW (a : addr) (Typ : types.Type_)
  | Inst_GetElementPtr (a : addr) (Typ : types.Type_)
  | Inst_Call (a : addr) (Typ : types.Type_).

Inductive Terminator : Type :=
  | Term_Ret (x : option value.Value)
  | Term_Br
  | Term_Invoke (a : addr) (Typ : types.Type_)
  | Term_Unreachable.

(** The values of the interface [value.Named] met in a function body.
    The pass reads the type of a call and of an invoke only. *)
Inductive Named : Type :=
  | Named_Param (a : addr)
  | Named_BasicBlock (a : addr)
  | Named_InstAlloca (a : addr)
  | Named_InstLoad (a : addr)
  | Named_InstCmpXchg (a : addr)
  | Named_InstAtomicRMW (a : addr)
  | Named_InstGetElementPtr (a : addr)
  | Named_InstCall (a : addr) (Typ : types.Type_)
  | Named_TermInvoke (a : addr) (Typ : types.Type_).

Definition Named_addr (n : Named) : addr :=
  match n with
  | Named_Param a | Named_BasicBlock a | Named_InstAlloca a
  | Named_InstLoad a | Named_InstCmpXchg a | Named_InstAtomicRMW a
  | Named_InstGetElementPtr a | Named_InstCall a _
  | Named_TermInvoke a _ => a
  end.

(** The type assertion [inst.(value.Named)]: store and fence have no
    [Name] and [SetName] methods. *)
Definition Instruction_as_Named (inst : Instruction) : option Named :=
  match inst with
  | Inst_Alloca a _ => Some (Named_InstAlloca a)
  | Inst_Load a _ => Some (Named_InstLoad a)
  | Inst_Store => None
  | Inst_Fence => None
  | Inst_CmpXchg a _ => Some (Named_InstCmpXchg a)
  | Inst_AtomicRMW a _ => Some (Named_InstAtomicRMW a)
  | Inst_GetElementPtr a _ => Some (Named_InstGetElementPtr a)
  | Inst_Call a ty => Some (Named_InstCall a ty)
  end.

(** The type assertion [block.Term.(value.Named)]. *)
Definition Terminator_as_Named (term : Terminator) : option Named :=
  match term with
  | Term_Invoke a ty => Some (Named_TermInvoke a ty)
  | _ => None
  end.

Record Param := mkParam
  { Param_addr : addr;
    Param_Typ : types.Type_ }.

Record BasicBlock := mkBasicBlock
  { Block_addr : addr;
    Insts : list Instruction;
    Term : Terminator }.

Record ComdatDef := mkComdatDef
  { Comdat_Name : string;
    Comdat_Kind : N }.

Abbreviation Constant := value.Value (only parsing).

(** ** Functions *)

Module Function.

Record t := mk
  { Sig : types.FuncType;
    GlobalName : string;
    Params : list Param;
    Blocks : list BasicBlock;
    Typ : option types.PointerType;
    Linkage : enum.Linkage;
    Preemption : enum.Preemption;
    Visibility : enum.Visibility;
    DLLStorageClass : enum.DLLStorageClass;
    CallingConv : enum.CallingConv;
    ReturnAttrs : list enum.ReturnAttribute;
    UnnamedAddr : enum.UnnamedAddr;
    FuncAttrs : list enum.FuncAttribute;
    Section_ : string;
    Comdat : option ComdatDef;
    GC : string;
    Prefix : option Constant;
    Prologue : option Constant;
    Personality : option Constant }.

Definition set_Typ (ty : option types.PointerType) (f : t) : t :=
  mk (Sig f) (GlobalName f) (Params f) (Blocks f) ty (Linkage f)
     (Preemption f) (Visibility f) (DLLStorageClass f) (CallingConv f)
     (ReturnAttrs f) (UnnamedAddr f) (FuncAttrs f) (Section_ f) (Comdat f)
     (GC f) (Prefix f) (Prologue f) (Personality f).


Definition set_Blocks (blocks : list BasicBlock) (f : t) : t :=
  mk (Sig f) (GlobalName f) (Params f) blocks (Typ f) (Linkage f)
     (Preemption f) (Visibility f) (DLLStorageClass f) (CallingConv f)
     (ReturnAttrs f) (UnnamedAddr f) (FuncAttrs f) (Section_ f) (Comdat f)
     (GC f) (Prefix f) (Prologue f) (Personality f).

(** [Type]: the receiver after the call is returned with the type. *)
Definition Type_ (f : t) : result (types.Type_ * t) :=
  match Typ f with
  | None =>
      let ty := types.NewPointer (types.of_FuncType (Sig f)) in
      Ok (types.of_PointerType ty, set_Typ (Some ty) f)
  | Some ty => Ok (types.of_PointerType ty, f)
  end.

Definition Name (f : t) : string := GlobalName f.

Definition SetName (name : string) (f : t) : t :=
  mk (Sig f) name (Params f) (Blocks f) (Typ f) (Linkage f)
     (Preemption f) (Visibility f) (DLLStorageClass f) (CallingConv f)
     (ReturnAttrs f) (UnnamedAddr f) (FuncAttrs f) (Section_ f) (Comdat f)
     (GC f) (Prefix f) (Prologue f) (Personality f).

End Function.

(** ** Integers and identifiers *)

(** Go's [int] is a 64-bit two's complement integer. *)
Definition int_wrap (z : Z) : Z := (z + 2 ^ 63) `mod` 2 ^ 64 - 2 ^ 63.

(** [id++]. *)
Definition incr (i : Z) : Z := int_wrap (i + 1).

(** [strconv.Itoa]: the decimal rendering of an integer. *)
Definition strconv_Itoa (i : Z) : string := pretty i.

(** Modelled from the spec: the helper [isUnnamed] is not among the
    sources; the bare name is empty. *)
Definition isUnnamed (name : string) : bool :=
  Nat.eqb (String.length name) 0.

Definition is_digit (c : ascii) : bool :=
  (48 <=? nat_of_ascii c)%nat && (nat_of_ascii c <=? 57)%nat.

Fixpoint all_digits (s : string) : bool :=
  match s with
  | EmptyString => true
  | String c s' => is_digit c && all_digits s'
  end.

(** Modelled from the spec: the helper [isLocalID] is not among the
    sources; the bare name is a bare decimal integer, a non-empty run of
    decimal digits. *)
Definition isLocalID (name : string) : bool :=
  all_digits name && negb (Nat.eqb (String.length name) 0).

(** [isVoidValue]: only a call or an invoke may be a non-value. *)
Definition isVoidValue (n : Named) : bool :=
  match n with
  | Named_InstCall _ ty | Named_TermInvoke _ ty => types.Equal ty types.Void
  | _ => false
  end.

(** ** Collaborators *)

(** The packages [enc], [enum] and [types], and the renderers of
    parameters, basic blocks, constants and comdat definitions are not
    among the sources: the functions of this file take them as
    parameters. *)
Class Collaborators := mkCollaborators
  { enc_Global : string -> string;
    enc_Local : string -> string;
    enc_Quote : string -> string;
    fmt_q : string -> string;
    Type_String : types.Type_ -> string;
    Linkage_String : enum.Linkage -> string;
    Preemption_String : enum.Preemption -> string;
    Visibility_String : enum.Visibility -> string;
    DLLStorageClass_String : enum.DLLStorageClass -> string;
    CallingConv_String : enum.CallingConv -> string;
    ReturnAttribute_String : enum.ReturnAttribute -> string;
    UnnamedAddr_String : enum.UnnamedAddr -> string;
    FuncAttribute_String : enum.FuncAttribute -> string;
    ComdatDef_String : ComdatDef -> string;
    Param_Def : gmap positive string -> Param -> string;
    BasicBlock_Def : gmap positive string -> BasicBlock -> string }.

(** ** The numbering pass *)

(** The pass threads the counter [id], the map [names] and the store of
    names, and may stop with an error; the store at that point is what
    the caller observes. *)
Record state := mkState
  { id : Z;
    names : gmap string positive;
    heap : gmap positive string }.

Inductive outcome (A : Type) : Type :=
  | Return (a : A)
  | Error (err : string).

Arguments Return {A} a.
Arguments Error {A} err.

Definition M (A : Type) : Type := state -> outcome A * state.

Definition ret {A : Type} (a : A) : M A := fun s => (Return a, s).

Definition bind {A B : Type} (c : M A) (k : A -> M B) : M B :=
  fun s =>
    match c s with
    | (Return a, s') => k a s'
    | (Error e, s') => (Error e, s')
    end.

Notation "c1 ;; c2" := (bind c1 (fun _ => c2))
  (at level 100, right associativity).

(** [errors.WithStack] annotates the error and keeps its message. *)
Definition errors_WithStack (err : string) : string := err.

(** [if err := c; err != nil { return errors.WithStack(err) }]. *)
Definition check (c : M unit) : M unit :=
  fun s =>
    match c s with
    | (Return a, s') => (Return a, s')
    | (Error e, s') => (Error (errors_WithStack e), s')
    end.

(** [for _, x := range l { body }], where the body may return. *)
Fixpoint for_range {A : Type} (body : A -> M unit) (l : list A) : M unit :=
  match l with
  | [] => ret tt
  | x :: l' => body x ;; for_range body l'
  end.

Section Numbering.

Context {C : Collaborators}.

(** The closure [setName] of [AssignIDs]. *)
Definition setName (f : Function.t) (n : Named) : M unit :=
  fun s =>
    let got := Name (heap s) (Named_addr n) in
    if isUnnamed got then
      let name := strconv_Itoa (id s) in
      (Return tt,
       mkState (incr (id s))
               (<[name := Named_addr n]> (names s))
               (SetName (Named_addr n) name (heap s)))
    else if isLocalID got then
      let want := strconv_Itoa (id s) in
      if negb (String.eqb want got) then
        (Error ("invalid local ID in function "
                +:+ fmt_q (enc_Global (Function.GlobalName f))
                +:+ ", expected " +:+ enc_Local want
                +:+ ", got " +:+ enc_Local got), s)
      else
        (Return tt, mkState (incr (id s)) (names s) (heap s))
    else
      (Return tt, s).

(** The body of the loop over the instructions of a block. *)
Definition number_inst (f : Function.t) (inst : Instruction) : M unit :=
  match Instruction_as_Named inst with
  | None => ret tt
  | Some n =>
      if isVoidValue n then ret tt
      else check (setName f n)
  end.

(** The statements that follow the loop over the instructions. *)
Definition number_term (f : Function.t) (term : Terminator) : M unit :=
  match Terminator_as_Named term with
  | None => ret tt
  | Some n =>
      if isVoidValue n then ret tt
      else check (setName f n)
  end.

(** The body of the loop over the blocks. *)
Definition number_block (f : Function.t) (block : BasicBlock) : M unit :=
  check (setName f (Named_BasicBlock (Block_addr block))) ;;
  for_range (number_inst f) (Insts block) ;;
  number_term f (Term block).

(** [AssignIDs]: the returned error ([None] for nil) and the store after
    the call. *)
Definition AssignIDs (f : Function.t) (σ : gmap positive string)
    : option string * gmap positive string :=
  if Nat.eqb (length (Function.Blocks f)) 0 then (None, σ)
  else
    let '(r, s) :=
      (for_range (fun param =>
                    check (setName f (Named_Param (Param_addr param))))
                 (Function.Params f) ;;
       for_range (number_block f) (Function.Blocks f))
        (mkState 0 ∅ σ) in
    (match r with Return _ => None | Error e => Some e end, heap s).

(** The traversal order, written without the functions of the pass:
    the parameters, then for each block the block itself, each of its
    instructions that has a result name, a call of type void left out,
    and its terminator when it is an invoke whose type is not void.  An
    alloca, a load, a cmpxchg, an atomicrmw and a getelementptr are
    visited whatever their type is. *)
Definition visited_inst (inst : Instruction) : list Named :=
  match inst with
  | Inst_Alloca a _ => [Named_InstAlloca a]
  | Inst_Load a _ => [Named_InstLoad a]
  | Inst_Store => []
  | Inst_Fence => []
  | Inst_CmpXchg a _ => [Named_InstCmpXchg a]
  | Inst_AtomicRMW a _ => [Named_InstAtomicRMW a]
  | Inst_GetElementPtr a _ => [Named_InstGetElementPtr a]
  | Inst_Call a types.Void => []
  | Inst_Call a ty => [Named_InstCall a ty]
  end.

Definition visited_insts (insts : list Instruction) : list Named :=
  concat (map visited_inst insts).

Definition visited_term (term : Terminator) : list Named :=
  match term with
  | Term_Ret _ => []
  | Term_Br => []
  | Term_Invoke a types.Void => []
  | Term_Invoke a ty => [Named_TermInvoke a ty]
  | Term_Unreachable => []
  end.

Definition visited_block (block : BasicBlock) : list Named :=
  Named_BasicBlock (Block_addr block)
    :: visited_insts (Insts block) ++ visited_term (Term block).

Definition visit_order (f : Function.t) : list Named :=
  map (fun param => Named_Param (Param_addr param)) (Function.Params f)
    ++ concat (map visited_block (Function.Blocks f)).

(** The traversal order as the specification words it: of the
    instructions, those that produce a named result whose type is not
    void; of the terminators, the one that produces such a result. *)
Definition is_void (ty : types.Type_) : bool :=
  match ty with
  | types.Void => true
  | _ => false
  end.

Definition named_result (inst : Instruction)
    : option (Named * types.Type_) :=
  match inst with
  | Inst_Alloca a ty => Some (Named_InstAlloca a, ty)
  | Inst_Load a ty => Some (Named_InstLoad a, ty)
  | Inst_Store => None
  | Inst_Fence => None
  | Inst_CmpXchg a ty => Some (Named_InstCmpXchg a, ty)
  | Inst_AtomicRMW a ty => Some (Named_InstAtomicRMW a, ty)
  | Inst_GetElementPtr a ty => Some (Named_InstGetElementPtr a, ty)
  | Inst_Call a ty => Some (Named_InstCall a ty, ty)
  end.

Definition non_void_inst (inst : Instruction) : list Named :=
  match named_result inst with
  | Some (n, ty) => if is_void ty then [] else [n]
  | None => []
  end.

Definition non_void_term (term : Terminator) : list Named :=
  match term with
  | Term_Invoke a ty => if is_void ty then [] else [Named_TermInvoke a ty]
  | _ => []
  end.

Definition non_void_block (block : BasicBlock) : list Named :=
  Named_BasicBlock (Block_addr block)
    :: concat (map non_void_inst (Insts block))
    ++ non_void_term (Term block).

Definition non_void_order (f : Function.t) : list Named :=
  map (fun param => Named_Param (Param_addr param)) (Function.Params f)
    ++ concat (map non_void_block (Function.Blocks f)).

End Numbering.

(** ** Textual emission *)

(** The line feed. *)
Definition newline : string := String (ascii_of_nat 10) EmptyString.

(** A [strings.Builder] is threaded as the text written so far. *)
Definition WriteString (s : string) (buf : string) : string := buf +:+ s.

(** [for i, x := range l { body }] over a builder. *)
Fixpoint range_write {A : Type} (body : nat -> A -> string -> string)
    (i : nat) (l : list A) (buf : string) : string :=
  match l with
  | [] => buf
  | x :: l' => range_write body (S i) l' (body i x buf)
  end.

Section Emission.

Context {C : Collaborators}.

Definition Function_Ident (f : Function.t) : string :=
  enc_Global (Function.GlobalName f).

(** [headerString]. *)
Definition headerString (σ : gmap positive string) (hdr : Function.t)
    : string :=
  let buf := "" in
  let buf :=
    if negb (N.eqb (Function.Preemption hdr) enum.PreemptionNone)
    then WriteString (" " +:+ Preemption_String (Function.Preemption hdr)) buf
    else buf in
  let buf :=
    if negb (N.eqb (Function.Visibility hdr) enum.VisibilityNone)
    then WriteString (" " +:+ Visibility_String (Function.Visibility hdr)) buf
    else buf in
  let buf :=
    if negb (N.eqb (Function.DLLStorageClass hdr) enum.DLLStorageClassNone)
    then WriteString
           (" " +:+ DLLStorageClass_String (Function.DLLStorageClass hdr)) buf
    else buf in
  let buf :=
    if negb (N.eqb (Function.CallingConv hdr) enum.CallingConvNone)
    then WriteString (" " +:+ CallingConv_String (Function.CallingConv hdr)) buf
    else buf in
  let buf :=
    range_write
      (fun _ attr buf => WriteString (" " +:+ ReturnAttribute_String attr) buf)
      0 (Function.ReturnAttrs hdr) buf in
  let buf :=
    WriteString (" " +:+ Type_String (types.RetType (Function.Sig hdr))) buf in
  let buf :=
    WriteString (" " +:+ enc_Global (Function.GlobalName hdr) +:+ "(") buf in
  let buf :=
    range_write
      (fun i param buf =>
         let buf := if negb (Nat.eqb i 0) then WriteString ", " buf else buf in
         WriteString (Param_Def σ param) buf)
      0 (Function.Params hdr) buf in
  let buf :=
    if types.Variadic (Function.Sig hdr) then
      let buf :=
        if Nat.ltb 0 (length (Function.Params hdr))
        then WriteString ", " buf else buf in
      WriteString "..." buf
    else buf in
  let buf := WriteString ")" buf in
  let buf :=
    if negb (N.eqb (Function.UnnamedAddr hdr) enum.UnnamedAddrNone)
    then WriteString (" " +:+ UnnamedAddr_String (Function.UnnamedAddr hdr)) buf
    else buf in
  let buf :=
    range_write
      (fun _ attr buf => WriteString (" " +:+ FuncAttribute_String attr) buf)
      0 (Function.FuncAttrs hdr) buf in
  let buf :=
    if Nat.ltb 0 (String.length (Function.Section_ hdr))
    then WriteString (" section " +:+ enc_Quote (Function.Section_ hdr)) buf
    else buf in
  let buf :=
    match Function.Comdat hdr with
    | Some comdat => WriteString (" " +:+ ComdatDef_String comdat) buf
    | None => buf
    end in
  let buf :=
    if Nat.ltb 0 (String.length (Function.GC hdr))
    then WriteString (" gc " +:+ enc_Quote (Function.GC hdr)) buf
    else buf in
  let buf :=
    match Function.Prefix hdr with
    | Some c => WriteString (" prefix " +:+ value.String c) buf
    | None => buf
    end in
  let buf :=
    match Function.Prologue hdr with
    | Some c => WriteString (" prologue " +:+ value.String c) buf
    | None => buf
    end in
  let buf :=
    match Function.Personality hdr with
    | Some c => WriteString (" personality " +:+ value.String c) buf
    | None => buf
    end in
  buf.

(** [bodyString]. *)
Definition bodyString (σ : gmap positive string) (body : Function.t)
    : string :=
  let buf := "" in
  let buf := WriteString ("{" +:+ newline) buf in
  let buf :=
    range_write
      (fun _ block buf => WriteString (BasicBlock_Def σ block +:+ newline) buf)
      0 (Function.Blocks body) buf in
  let buf := WriteString "}" buf in
  buf.

(** [Def]. *)
Definition Def (σ : gmap positive string) (f : Function.t) : string :=
  let buf := "" in
  if Nat.eqb (length (Function.Blocks f)) 0 then
    let buf := WriteString "declare" buf in
    let buf :=
      if negb (bool_decide (Function.Linkage f = enum.LinkageNone))
      then WriteString (" " +:+ Linkage_String (Function.Linkage f)) buf
      else buf in
    let buf := WriteString (headerString σ f) buf in
    buf
  else
    let buf := WriteString "define" buf in
    let buf :=
      if negb (bool_decide (Function.Linkage f = enum.LinkageNone))
      then WriteString (" " +:+ Linkage_String (Function.Linkage f)) buf
      else buf in
    let buf := WriteString (headerString σ f) buf in
    let buf := WriteString (" " +:+ bodyString σ f) buf in
    buf.

(** The text between the parentheses of the header, in the words of the
    grammar: the parameter definitions separated by a comma and a space,
    then the ellipsis of a variadic signature, after a separator when a
    parameter precedes it. *)
Definition params_text (σ : gmap positive string) (hdr : Function.t)
    : string :=
  String.concat ", " (map (Param_Def σ) (Function.Params hdr))
  +:+ (if types.Variadic (Function.Sig hdr)
       then (match Function.Params hdr with [] => "" | _ :: _ => ", " end)
            +:+ "..."
       else "").

(** The text that [headerString] writes before the opening parenthesis. *)
Definition header_front (hdr : Function.t) : string :=
  (if negb (N.eqb (Function.Preemption hdr) enum.PreemptionNone)
   then " " +:+ Preemption_String (Function.Preemption hdr) else "")
  +:+ (if negb (N.eqb (Function.Visibility hdr) enum.VisibilityNone)
       then " " +:+ Visibility_String (Function.Visibility hdr) else "")
  +:+ (if negb (N.eqb (Function.DLLStorageClass hdr) enum.DLLStorageClassNone)
       then " " +:+ DLLStorageClass_String (Function.DLLStorageClass hdr)
       else "")
  +:+ (if negb (N.eqb (Function.CallingConv hdr) enum.CallingConvNone)
       then " " +:+ CallingConv_String (Function.CallingConv hdr) else "")
  +:+ String.concat ""
        (map (fun attr => " " +:+ ReturnAttribute_String attr)
             (Function.ReturnAttrs hdr))
  +:+ " " +:+ Type_String (types.RetType (Function.Sig hdr))
  +:+ " " +:+ enc_Global (Function.GlobalName hdr).

(** The text that [headerString] writes after the closing parenthesis. *)
Definition header_back (hdr : Function.t) : string :=
  (if negb (N.eqb (Function.UnnamedAddr hdr) enum.UnnamedAddrNone)
   then " " +:+ UnnamedAddr_String (Function.UnnamedAddr hdr) else "")
  +:+ String.concat ""
        (map (fun attr => " " +:+ FuncAttribute_String attr)
             (Function.FuncAttrs hdr))
  +:+ (if Nat.ltb 0 (String.length (Function.Section_ hdr))
       then " section " +:+ enc_Quote (Function.Section_ hdr) else "")
  +:+ (match Function.Comdat hdr with
       | Some comdat => " " +:+ ComdatDef_String comdat
       | None => ""
       end)
  +:+ (if Nat.ltb 0 (String.length (Function.GC hdr))
       then " gc " +:+ enc_Quote (Function.GC hdr) else "")
  +:+ (match Function.Prefix hdr with
       | Some c => " prefix " +:+ value.String c
       | None => ""
       end)
  +:+ (match Function.Prologue hdr with
       | Some c => " prologue " +:+ value.String c
       | None => ""
       end)
  +:+ (match Function.Personality hdr with
       | Some c => " personality " +:+ value.String c
       | None => ""
       end).

(** The linkage clause that [Def] writes after the keyword. *)
Definition linkage_clause (f : Function.t) : string :=
  match Function.Linkage f with
  | enum.LinkageNone => ""
  | l => " " +:+ Linkage_String l
  end.

End Emission.

(** ** A concrete choice of collaborators *)

(** The renderers below follow the surface syntax of the assembly
    language closely enough to evaluate the functions of this file on
    concrete inputs; the general statements do not depend on them. *)

Fixpoint example_Type_String (t : types.Type_) : string :=
  match t with
  | types.Void => "void"
  | types.Int n => "i" +:+ pretty n
  | types.Pointer e _ => example_Type_String e +:+ "*"
  | types.Struct fs =>
      "{ " +:+ String.concat ", " (map example_Type_String fs) +:+ " }"
  | types.Func r ps _ =>
      example_Type_String r
      +:+ " (" +:+ String.concat ", " (map example_Type_String ps) +:+ ")"
  end.

Definition example_Linkage_String (l : enum.Linkage) : string :=
  match l with
  | enum.LinkageNone => "none"
  | enum.LinkageAppending => "appending"
  | enum.LinkageAvailableExternally => "available_externally"
  | enum.LinkageCommon => "common"
  | enum.LinkageInternal => "internal"
  | enum.LinkageLinkOnce => "linkonce"
  | enum.LinkageLinkOnceODR => "linkonce_odr"
  | enum.LinkagePrivate => "private"
  | enum.LinkageWeak => "weak"
  | enum.LinkageWeakODR => "weak_odr"
  | enum.LinkageExternal => "external"
  | enum.LinkageExternWeak => "extern_weak"
  end.

Definition double_quote : string := String (ascii_of_nat 34) EmptyString.

Definition example_quote (s : string) : string :=
  double_quote +:+ s +:+ double_quote.

Definition example_collaborators : Collaborators :=
  {| enc_Global := fun name => "@" +:+ name;
     enc_Local := fun name => "%" +:+ name;
     enc_Quote := example_quote;
     fmt_q := example_quote;
     Type_String := example_Type_String;
     Linkage_String := example_Linkage_String;
     Preemption_String := fun x => "preemption" +:+ pretty x;
     Visibility_String := fun x => "visibility" +:+ pretty x;
     DLLStorageClass_String := fun x => "dll" +:+ pretty x;
     CallingConv_String := fun x => "cc " +:+ pretty x;
     ReturnAttribute_String := fun x => "retattr" +:+ pretty x;
     UnnamedAddr_String := fun x => "unnamed_addr" +:+ pretty x;
     FuncAttribute_String := fun x => "attr" +:+ pretty x;
     ComdatDef_String := fun c => "comdat($" +:+ Comdat_Name c +:+ ")";
     Param_Def := fun σ p =>
       example_Type_String (Param_Typ p)
       +:+ " %" +:+ Name σ (Param_addr p);
     BasicBlock_Def := fun σ b => Name σ (Block_addr b) +:+ ":" |}.

(** A function with the given signature, name, parameters and blocks and
    no optional attribute. *)
Definition plain_function (sig : types.FuncType) (name : string)
    (params : list Param) (blocks : list BasicBlock) : Function.t :=
  Function.mk sig name params blocks None enum.LinkageNone
    0%N 0%N 0%N 0%N [] 0%N [] "" None "" None None None.

Definition i32 : types.Type_ := types.Int 32.
Definition i64 : types.Type_ := types.Int 64.

Definition pointer_to (t : types.Type_) : types.Type_ :=
  types.of_PointerType (types.NewPointer t).

(** Operands: a value of type [ty] called [name]. *)
Definition operand (ty : types.Type_) (name : string) : value.Value :=
  value.mkValue ty ("%" +:+ name)
                (example_Type_String ty +:+ " %" +:+ name).

(** Parameters [unnamed, "x"], and one unnamed block holding an unnamed
    alloca, an unnamed load and a return of no value. *)
Definition example_block : BasicBlock :=
  mkBasicBlock 3 [Inst_Alloca 4 (pointer_to i32); Inst_Load 5 i32]
               (Term_Ret None).

Definition example_function : Function.t :=
  plain_function (types.mkFuncType types.Void [i32; i32] false) "f"
    [mkParam 1 i32; mkParam 2 i32] [example_block].

Definition example_store : gmap positive string := {[ 2%positive := "x" ]}.

(** The same function, where the load is already named ["5"]. *)
Definition example_store_mismatch : gmap positive string :=
  {[ 2%positive := "x"; 5%positive := "5" ]}.

(** One block holding a call of no value, a call of an [i32], a store
    and a fence, ended by an invoke of no value; and the same block ended
    by an invoke of an [i64]. *)
Definition example_calls (term : Terminator) : Function.t :=
  plain_function (types.mkFuncType types.Void [] false) "g" []
    [mkBasicBlock 1
       [Inst_Call 2 types.Void; Inst_Call 3 i32; Inst_Store; Inst_Fence]
       term].

(** One block holding an alloca of element type void and a load
    through it, whose type is void. *)
Definition void_load_function : Function.t :=
  plain_function (types.mkFuncType types.Void [] false) "v" []
    [mkBasicBlock 1
       [Inst_Alloca 2 (pointer_to types.Void); Inst_Load 3 types.Void]
       (Term_Ret None)].

(** The projection of the result of the pass on what the caller sees. *)
Definition finish (r : outcome unit * state)
    : option string * gmap positive string :=
  (match r.1 with Return _ => None | Error e => Some e end, heap r.2).

(** The message of the identifier-mismatch error. *)
Definition mismatch_error {C : Collaborators} (f : Function.t)
    (want got : string) : string :=
  "invalid local ID in function "
  +:+ fmt_q (enc_Global (Function.GlobalName f))
  +:+ ", expected " +:+ enc_Local want
  +:+ ", got " +:+ enc_Local got.

(** ** Statements about the type caches *)



(** A declaration with internal linkage, and a variadic declaration
    without parameters. *)
Definition internal_declaration : Function.t :=
  Function.mk (types.mkFuncType types.Void [] false) "f" [] [] None
    enum.LinkageInternal 0%N 0%N 0%N 0%N [] 0%N [] "" None "" None None None.

Definition variadic_declaration : Function.t :=
  plain_function (types.mkFuncType i32 [] true) "printf" [] [].

(** ** Values as type-value pairs *)

(** [fmt.Sprintf("%v %v", x.Type(), x.Ident())]: the type access comes
    first, writes the cache and may panic; the receiver after the call
    is returned with the text. *)
Definition Sprintf_type_ident {A : Type} {C : Collaborators}
    (Type_ : A -> result (types.Type_ * A)) (Ident : A -> string)
    (x : A) : result (string * A) :=
  match Type_ x with
  | Ok (ty, x') => Ok (Type_String ty +:+ " " +:+ Ident x', x')
  | Panic v => Panic v
  end.

Section Values.

Context {C : Collaborators}.

Definition InstAlloca_Ident (inst : InstAlloca.t) : string :=
  enc_Local (InstAlloca.LocalName inst).

Definition InstAlloca_String (inst : InstAlloca.t)
    : result (string * InstAlloca.t) :=
  Sprintf_type_ident InstAlloca.Type_ InstAlloca_Ident inst.

Definition InstLoad_Ident (inst : InstLoad.t) : string :=
  enc_Local (InstLoad.LocalName inst).

Definition InstLoad_String (inst : InstLoad.t)
    : result (string * InstLoad.t) :=
  Sprintf_type_ident InstLoad.Type_ InstLoad_Ident inst.

Definition InstCmpXchg_Ident (inst : InstCmpXchg.t) : string :=
  enc_Local (InstCmpXchg.LocalName inst).

Definition InstCmpXchg_String (inst : InstCmpXchg.t)
    : result (string * InstCmpXchg.t) :=
  Sprintf_type_ident InstCmpXchg.Type_ InstCmpXchg_Ident inst.

Definition InstAtomicRMW_Ident (inst : InstAtomicRMW.t) : string :=
  enc_Local (InstAtomicRMW.LocalName inst).

Definition InstAtomicRMW_String (inst : InstAtomicRMW.t)
    : result (string * InstAtomicRMW.t) :=
  Sprintf_type_ident InstAtomicRMW.Type_ InstAtomicRMW_Ident inst.

Definition InstGetElementPtr_Ident (inst : InstGetElementPtr.t) : string :=
  enc_Local (InstGetElementPtr.LocalName inst).

Definition InstGetElementPtr_String (inst : InstGetElementPtr.t)
    : result (string * InstGetElementPtr.t) :=
  Sprintf_type_ident InstGetElementPtr.Type_ InstGetElementPtr_Ident inst.

Definition Function_String (f : Function.t) : result (string * Function.t) :=
  Sprintf_type_ident Function.Type_ Function_Ident f.

End Values.

(** [NewFunction] is not implemented. *)
Definition NewFunction (name : string) (retType : types.Type_)
    (params : list Param) : result Function.t :=
  Panic "not yet implemented".

(** The names of the entities of a traversal, as a store gives them. *)
Definition names_in (σ : gmap positive string) (l : list Named)
    : list string :=
  map (fun n => Name σ (Named_addr n)) l.

(** The entities of a traversal whose name in a store is numeric. *)
Definition numbered (σ : gmap positive string) (l : list Named)
    : list Named :=
  filter (fun n => isLocalID (Name σ (Named_addr n)) = true) l.

(** Two alloca instructions and a load between two parameters of one
    block, for evaluating the pass on a store without names. *)
Definition fresh_function : Function.t :=
  plain_function (types.mkFuncType types.Void [i32] false) "h"
    [mkParam 10 i32]
    [mkBasicBlock 11
       [Inst_Alloca 12 (pointer_to i32); Inst_Store; Inst_Load 13 i32]
                  (Term_Ret None)].

(** A rendering as a type-value pair follows the type access: it panics
    with it, otherwise it is the type, a space and the identifier, and
    every receiver with the cache the call left and the same name is
    rendered as the same text and left as it is. *)
Definition renders_pair {A T : Type} {C : Collaborators}
    (Type_ : A -> result (types.Type_ * A))
    (String_ : A -> result (string * A))
    (Ident : A -> string) (cache : A -> option T) (name : A -> string)
    : Prop :=
  (forall (x : A) (v : string), String_ x = Panic v <-> Type_ x = Panic v)
  /\ (forall (x x' : A) (ty : types.Type_),
        Type_ x = Ok (ty, x') ->
        String_ x = Ok (Type_String ty +:+ " " +:+ Ident x, x'))
  /\ (forall (x x' : A) (txt : string),
        String_ x = Ok (txt, x') ->
        forall y : A,
          cache y = cache x' -> name y = name x ->
          String_ y = Ok (txt, y)).

(** The clause of an optional comdat in the header. *)
Definition comdat_clause {C : Collaborators} (hdr : Function.t) : string :=
  match Function.Comdat hdr with
  | Some comdat => " " +:+ ComdatDef_String comdat
  | None => ""
  end.

(** * Properties *)

(** ** Type inference of the memory instructions *)

Lemma InstLoad_Type_cached (inst : InstLoad.t) (ty : types.Type_) :
  InstLoad.Typ inst = Some ty -> InstLoad.Type_ inst = Ok (ty, inst).
Proof. unfold InstLoad.Type_; intros ->; reflexivity. Qed.

Lemma InstAtomicRMW_Type_cached (inst : InstAtomicRMW.t) (ty : types.Type_) :
  InstAtomicRMW.Typ inst = Some ty -> InstAtomicRMW.Type_ inst = Ok (ty, inst).
Proof. unfold InstAtomicRMW.Type_; intros ->; reflexivity. Qed.

Lemma InstCmpXchg_Type_cached (inst : InstCmpXchg.t) (ty : types.StructType) :
  InstCmpXchg.Typ inst = Some ty ->
  InstCmpXchg.Type_ inst = Ok (types.of_StructType ty, inst).
Proof. unfold InstCmpXchg.Type_; intros ->; reflexivity. Qed.

(** C4, as stated, fails: a load whose source was replaced after the
    first type access has a pointer-typed source and reports the type
    cached before, not the pointee of that source. *)
Lemma load_type_stale_cache :
  ~ (forall (inst : InstLoad.t) (p : types.PointerType),
       types.as_PointerType (value.Type_ (InstLoad.Src inst)) = Some p ->
       exists inst', InstLoad.Type_ inst = Ok (types.ElemType p, inst')).
Proof.
  intros Hclaim.
  pose (inst1 := InstLoad.set_Typ (Some i32)
                   (NewLoad (operand (pointer_to i32) "p"))).
  assert (Hfirst : InstLoad.Type_ (NewLoad (operand (pointer_to i32) "p"))
                   = Ok (i32, inst1)) by reflexivity.
  pose (inst2 := InstLoad.set_Src (operand (pointer_to i64) "q") inst1).
  destruct (Hclaim inst2 (types.NewPointer i64) eq_refl) as [inst' Hsecond].
  vm_compute in Hsecond. discriminate Hsecond.
Qed.

(** C4 (amended): a load whose cache is empty, or holds the pointee type
    of its source, and whose source has a pointer type reports the
    pointee type of that pointer type and holds it in its cache after the
    call; so does an atomicrmw for its destination. *)
Theorem load_atomicrmw_type_is_pointee :
  (forall (inst : InstLoad.t) (p : types.PointerType),
     types.as_PointerType (value.Type_ (InstLoad.Src inst)) = Some p ->
     InstLoad.Typ inst = None
     \/ InstLoad.Typ inst = Some (types.ElemType p) ->
     InstLoad.Type_ inst
     = Ok (types.ElemType p,
           InstLoad.set_Typ (Some (types.ElemType p)) inst))
  /\ (forall (inst : InstAtomicRMW.t) (p : types.PointerType),
        types.as_PointerType (value.Type_ (InstAtomicRMW.Dst inst)) = Some p ->
        InstAtomicRMW.Typ inst = None
        \/ InstAtomicRMW.Typ inst = Some (types.ElemType p) ->
        InstAtomicRMW.Type_ inst
        = Ok (types.ElemType p,
              InstAtomicRMW.set_Typ (Some (types.ElemType p)) inst)).
Proof.
  split; intros inst p Hptr [Hnone | Hsome].
  - unfold InstLoad.Type_. rewrite Hnone, Hptr. reflexivity.
  - rewrite (InstLoad_Type_cached _ _ Hsome).
    destruct inst; simpl in *; subst; reflexivity.
  - unfold InstAtomicRMW.Type_. rewrite Hnone, Hptr. reflexivity.
  - rewrite (InstAtomicRMW_Type_cached _ _ Hsome).
    destruct inst; simpl in *; subst; reflexivity.
Qed.

Lemma load_atomicrmw_type_is_pointee_witness :
  InstLoad.Type_ (NewLoad (operand (pointer_to i32) "p"))
  = Ok (i32, InstLoad.set_Typ (Some i32)
               (NewLoad (operand (pointer_to i32) "p")))
  /\ InstAtomicRMW.Type_
       (NewAtomicRMW 1%N (operand (pointer_to i64) "p") (operand i64 "x") 7%N)
     = Ok (i64, InstAtomicRMW.set_Typ (Some i64)
                  (NewAtomicRMW 1%N (operand (pointer_to i64) "p")
                                (operand i64 "x") 7%N)).
Proof.
  split.
  - apply (proj1 load_atomicrmw_type_is_pointee
             (NewLoad (operand (pointer_to i32) "p")) (types.NewPointer i32)).
    + reflexivity.
    + left; reflexivity.
  - apply (proj2 load_atomicrmw_type_is_pointee
             (NewAtomicRMW 1%N (operand (pointer_to i64) "p")
                           (operand i64 "x") 7%N)
             (types.NewPointer i64)).
    + reflexivity.
    + left; reflexivity.
Defined.

(** C5: a load with an empty cache whose source does not have a pointer
    type panics on the type access, and so does an atomicrmw for its
    destination; when the operand has a pointer type the access returns. *)
Theorem type_access_panics_without_pointer :
  (forall inst : InstLoad.t,
     InstLoad.Typ inst = None ->
     types.as_PointerType (value.Type_ (InstLoad.Src inst)) = None ->
     InstLoad.Type_ inst
     = Panic ("invalid source type; expected *types.PointerType, got "
              +:+ types.GoTypeName (value.Type_ (InstLoad.Src inst))))
  /\ (forall inst : InstAtomicRMW.t,
        InstAtomicRMW.Typ inst = None ->
        types.as_PointerType (value.Type_ (InstAtomicRMW.Dst inst)) = None ->
        InstAtomicRMW.Type_ inst
        = Panic ("invalid destination type; expected *types.PointerType, got "
                 +:+ types.GoTypeName (value.Type_ (InstAtomicRMW.Dst inst))))
  /\ (forall (inst : InstLoad.t) (p : types.PointerType),
        types.as_PointerType (value.Type_ (InstLoad.Src inst)) = Some p ->
        exists r, InstLoad.Type_ inst = Ok r)
  /\ (forall (inst : InstAtomicRMW.t) (p : types.PointerType),
        types.as_PointerType (value.Type_ (InstAtomicRMW.Dst inst)) = Some p ->
        exists r, InstAtomicRMW.Type_ inst = Ok r).
Proof.
  repeat split.
  - intros inst Hnone Hnot. unfold InstLoad.Type_.
    rewrite Hnone, Hnot. reflexivity.
  - intros inst Hnone Hnot. unfold InstAtomicRMW.Type_.
    rewrite Hnone, Hnot. reflexivity.
  - intros inst p Hptr. unfold InstLoad.Type_.
    destruct (InstLoad.Typ inst); [eauto |]. rewrite Hptr. eauto.
  - intros inst p Hptr. unfold InstAtomicRMW.Type_.
    destruct (InstAtomicRMW.Typ inst); [eauto |]. rewrite Hptr. eauto.
Qed.

Lemma type_access_panics_without_pointer_witness :
  InstLoad.Type_ (NewLoad (operand i32 "v"))
  = Panic "invalid source type; expected *types.PointerType, got *types.IntType"
  /\ InstAtomicRMW.Type_
       (NewAtomicRMW 1%N (operand types.Void "d") (operand i64 "x") 7%N)
     = Panic
         "invalid destination type; expected *types.PointerType, got *types.VoidType"
  /\ (exists r, InstLoad.Type_ (NewLoad (operand (pointer_to i32) "p")) = Ok r)
  /\ (exists r,
        InstAtomicRMW.Type_
          (NewAtomicRMW 1%N (operand (pointer_to i64) "p")
                        (operand i64 "x") 7%N) = Ok r).
Proof.
  destruct type_access_panics_without_pointer as (Hload & Hrmw & Hl & Hr).
  split; [| split; [| split]].
  - apply (Hload (NewLoad (operand i32 "v"))); reflexivity.
  - apply (Hrmw (NewAtomicRMW 1%N (operand types.Void "d")
                              (operand i64 "x") 7%N)); reflexivity.
  - apply (Hl (NewLoad (operand (pointer_to i32) "p")) (types.NewPointer i32)).
    reflexivity.
  - apply (Hr (NewAtomicRMW 1%N (operand (pointer_to i64) "p")
                            (operand i64 "x") 7%N) (types.NewPointer i64)).
    reflexivity.
Defined.

(** C6, as stated, fails: a cmpxchg whose new value was replaced after
    the first type access reports the struct type cached before, whose
    first field is not the type of the new value. *)
Lemma cmpxchg_type_stale_cache :
  ~ (forall inst : InstCmpXchg.t,
       exists inst',
         InstCmpXchg.Type_ inst
         = Ok (types.Struct [value.Type_ (InstCmpXchg.New inst); types.I1],
               inst')).
Proof.
  intros Hclaim.
  pose (fresh := NewCmpXchg (operand (pointer_to i32) "p")
                            (operand i32 "c") (operand i32 "n") 7%N 7%N).
  pose (inst1 := InstCmpXchg.set_Typ
                   (Some (types.NewStruct [i32; types.I1])) fresh).
  assert (Hfirst : InstCmpXchg.Type_ fresh
                   = Ok (types.Struct [i32; types.I1], inst1)) by reflexivity.
  destruct (Hclaim (InstCmpXchg.set_New (operand i64 "m") inst1))
    as [inst' Hsecond].
  vm_compute in Hsecond. discriminate Hsecond.
Qed.

(** C6 (amended): a cmpxchg whose cache is empty, or holds the struct
    type made of the type of its new value and of [i1], reports a struct
    type of two fields, the type of the new value and [i1], whatever the
    types of the address and of the value compared against are, and holds
    that struct type in its cache after the call. *)
Theorem cmpxchg_type_is_pair (inst : InstCmpXchg.t) :
  InstCmpXchg.Typ inst = None
  \/ InstCmpXchg.Typ inst
     = Some (types.NewStruct [value.Type_ (InstCmpXchg.New inst); types.I1]) ->
  InstCmpXchg.Type_ inst
  = Ok (types.Struct [value.Type_ (InstCmpXchg.New inst); types.I1],
        InstCmpXchg.set_Typ
          (Some (types.NewStruct
                   [value.Type_ (InstCmpXchg.New inst); types.I1])) inst).
Proof.
  intros [Hnone | Hsome].
  - unfold InstCmpXchg.Type_. rewrite Hnone. reflexivity.
  - rewrite (InstCmpXchg_Type_cached _ _ Hsome).
    destruct inst; simpl in *; subst; reflexivity.
Qed.

Lemma cmpxchg_type_is_pair_witness :
  InstCmpXchg.Type_
    (NewCmpXchg (operand types.Void "p") (operand i64 "c")
                (operand i32 "n") 7%N 7%N)
  = Ok (types.Struct [i32; types.Int 1],
        InstCmpXchg.set_Typ (Some (types.NewStruct [i32; types.I1]))
          (NewCmpXchg (operand types.Void "p") (operand i64 "c")
                      (operand i32 "n") 7%N 7%N)).
Proof.
  apply (cmpxchg_type_is_pair
           (NewCmpXchg (operand types.Void "p") (operand i64 "c")
                       (operand i32 "n") 7%N 7%N)).
  left; reflexivity.
Defined.



(** ** The numbering pass *)

Lemma isUnnamed_true (name : string) : isUnnamed name = true <-> name = "".
Proof.
  unfold isUnnamed. destruct name; simpl; split; intros Heq;
    (reflexivity || discriminate).
Qed.

Lemma isUnnamed_false (name : string) : isUnnamed name = false <-> name <> "".
Proof.
  unfold isUnnamed. destruct name; simpl; split; intros Heq;
    (reflexivity || discriminate || congruence).
Qed.

Lemma isLocalID_nonempty (name : string) : isLocalID name = true -> name <> "".
Proof. intros Hid ->. discriminate Hid. Qed.

Lemma pretty_N_go_length (x : N) (s : string) :
  (String.length s <= String.length (pretty_N_go x s))%nat.
Proof.
  revert s. induction (N.lt_wf_0 x) as [x _ IH]. intros s.
  destruct (decide (x = 0%N)) as [-> | Hpos].
  - rewrite pretty_N_go_0. lia.
  - rewrite pretty_N_go_step by lia.
    etransitivity; [| apply IH; apply N.div_lt; lia]. simpl. lia.
Qed.

Lemma pretty_positive_nonempty (p : positive) : pretty (N.pos p) <> "".
Proof.
  unfold pretty, pretty_N. rewrite decide_False by discriminate.
  rewrite pretty_N_go_step by lia. intros Hempty.
  pose proof (pretty_N_go_length (N.pos p `div` 10)
                (String (pretty_N_char (N.pos p `mod` 10)) "")) as Hlen.
  rewrite Hempty in Hlen. simpl in Hlen. lia.
Qed.

Lemma strconv_Itoa_nonempty (i : Z) : strconv_Itoa i <> "".
Proof.
  unfold strconv_Itoa, pretty, pretty_Z. destruct i as [| p | p].
  - discriminate.
  - apply pretty_positive_nonempty.
  - discriminate.
Qed.

Lemma incr_small (i : Z) : 0 <= i < 2 ^ 63 - 1 -> incr i = i + 1.
Proof.
  intros Hrange. unfold incr, int_wrap.
  change (2 ^ 63) with 9223372036854775808 in *.
  change (2 ^ 64) with 18446744073709551616.
  rewrite Z.mod_small by lia. lia.
Qed.

Lemma Equal_Void (ty : types.Type_) :
  types.Equal ty types.Void = true <-> ty = types.Void.
Proof. destruct ty; simpl; split; intros Heq; (reflexivity || discriminate). Qed.

(** Only a call or an invoke of type void is a non-value. *)
Lemma isVoidValue_true (n : Named) :
  isVoidValue n = true
  <-> exists a, n = Named_InstCall a types.Void
                \/ n = Named_TermInvoke a types.Void.
Proof.
  split.
  - destruct n as [a | a | a | a | a | a | a | a ty | a ty]; simpl;
      try discriminate; intros Hvoid; apply Equal_Void in Hvoid; subst;
      exists a; [left | right]; reflexivity.
  - intros [a [-> | ->]]; reflexivity.
Qed.

(** Calls and invokes of no value, stores and fences are not visited. *)
Example visit_order_calls :
  visit_order (example_calls (Term_Invoke 4 types.Void))
  = [Named_BasicBlock 1; Named_InstCall 3 i32]
  /\ visit_order (example_calls (Term_Invoke 4 i64))
     = [Named_BasicBlock 1; Named_InstCall 3 i32; Named_TermInvoke 4 i64].
Proof. split; reflexivity. Qed.

Example AssignIDs_calls :
  (@AssignIDs example_collaborators
     (example_calls (Term_Invoke 4 i64)) ∅).2
  = {[ 1%positive := "0"; 3%positive := "1"; 4%positive := "2" ]}.
Proof. vm_compute. reflexivity. Qed.

Lemma check_same (c : M unit) (s : state) : check c s = c s.
Proof.
  unfold check, errors_WithStack. destruct (c s) as [[a | e] s']; reflexivity.
Qed.

Lemma for_range_ext {A : Type} (body1 body2 : A -> M unit) (l : list A) :
  (forall x s, body1 x s = body2 x s) ->
  forall s, for_range body1 l s = for_range body2 l s.
Proof.
  intros Hext. induction l as [| x l IH]; intros s; simpl; [reflexivity |].
  unfold bind. rewrite Hext.
  destruct (body2 x s) as [[a | e] s']; [apply IH | reflexivity].
Qed.

Lemma for_range_app {A : Type} (body : A -> M unit) (l1 l2 : list A)
    (s : state) :
  for_range body (l1 ++ l2) s
  = (for_range body l1 ;; for_range body l2) s.
Proof.
  revert s. induction l1 as [| x l1 IH]; intros s; simpl.
  - reflexivity.
  - unfold bind at 1 2 3.
    destruct (body x s) as [[a | e] s']; [| reflexivity].
    rewrite IH. reflexivity.
Qed.

Lemma for_range_map {A B : Type} (g : A -> B) (body : B -> M unit)
    (l : list A) (s : state) :
  for_range (fun x => body (g x)) l s = for_range body (map g l) s.
Proof.
  revert s. induction l as [| x l IH]; intros s; simpl; [reflexivity |].
  unfold bind. destruct (body (g x) s) as [[a | e] s'];
    [apply IH | reflexivity].
Qed.

Lemma for_range_concat {A B : Type} (g : A -> list B) (body : B -> M unit)
    (l : list A) (s : state) :
  for_range (fun x => for_range body (g x)) l s
  = for_range body (concat (map g l)) s.
Proof.
  revert s. induction l as [| x l IH]; intros s; simpl; [reflexivity |].
  rewrite for_range_app. unfold bind.
  destruct (for_range body (g x) s) as [[a | e] s'];
    [apply IH | reflexivity].
Qed.

(** A loop that stops with an error stops at the first element whose
    body fails, after the elements before it have all returned. *)
Lemma for_range_error {A : Type} (body : A -> M unit) (l : list A)
    (s s' : state) (e : string) :
  for_range body l s = (Error e, s') ->
  exists pre x post s1,
    l = pre ++ x :: post
    /\ for_range body pre s = (Return tt, s1)
    /\ body x s1 = (Error e, s').
Proof.
  revert s. induction l as [| x l IH]; intros s; simpl.
  - discriminate.
  - unfold bind. destruct (body x s) as [[[] | e0] s0] eqn:Hx.
    + intros Hrest. destruct (IH _ Hrest) as (pre & y & post & s1 & -> & Hpre & Hy).
      exists (x :: pre), y, post, s1. split; [reflexivity |]. split; [| exact Hy].
      simpl. unfold bind. rewrite Hx. exact Hpre.
    + intros Heq. inversion Heq; subst.
      exists [], x, l, s. split; [reflexivity |]. split; [reflexivity | exact Hx].
Qed.

Section NumberingFacts.

Context {C : Collaborators}.

(** *** One call of [setName] *)

Lemma setName_unnamed (f : Function.t) (n : Named) (s : state) :
  Name (heap s) (Named_addr n) = "" ->
  setName f n s
  = (Return tt,
     mkState (incr (id s))
             (<[strconv_Itoa (id s) := Named_addr n]> (names s))
             (<[Named_addr n := strconv_Itoa (id s)]> (heap s))).
Proof.
  intros Hgot. unfold setName. rewrite Hgot. reflexivity.
Qed.

Lemma setName_numeric_match (f : Function.t) (n : Named) (s : state) :
  isLocalID (Name (heap s) (Named_addr n)) = true ->
  Name (heap s) (Named_addr n) = strconv_Itoa (id s) ->
  setName f n s = (Return tt, mkState (incr (id s)) (names s) (heap s)).
Proof.
  intros Hid Hgot. unfold setName.
  rewrite (proj2 (isUnnamed_false _) (isLocalID_nonempty _ Hid)), Hid.
  rewrite Hgot, String.eqb_refl. reflexivity.
Qed.

Lemma setName_numeric_mismatch (f : Function.t) (n : Named) (s : state) :
  isLocalID (Name (heap s) (Named_addr n)) = true ->
  Name (heap s) (Named_addr n) <> strconv_Itoa (id s) ->
  setName f n s
  = (Error (mismatch_error f (strconv_Itoa (id s))
                           (Name (heap s) (Named_addr n))), s).
Proof.
  intros Hid Hgot. unfold setName.
  rewrite (proj2 (isUnnamed_false _) (isLocalID_nonempty _ Hid)), Hid.
  destruct (String.eqb_spec (strconv_Itoa (id s))
                            (Name (heap s) (Named_addr n))) as [Heq | Hne].
  - congruence.
  - reflexivity.
Qed.

Lemma setName_named (f : Function.t) (n : Named) (s : state) :
  Name (heap s) (Named_addr n) <> "" ->
  isLocalID (Name (heap s) (Named_addr n)) = false ->
  setName f n s = (Return tt, s).
Proof.
  intros Hne Hid. unfold setName.
  rewrite (proj2 (isUnnamed_false _) Hne), Hid. reflexivity.
Qed.

(** A call that fails changes nothing, and it fails on a numeric name
    that is not the counter. *)
Lemma setName_error (f : Function.t) (n : Named) (s s' : state) (e : string) :
  setName f n s = (Error e, s') ->
  s' = s
  /\ isLocalID (Name (heap s) (Named_addr n)) = true
  /\ Name (heap s) (Named_addr n) <> strconv_Itoa (id s)
  /\ e = mismatch_error f (strconv_Itoa (id s)) (Name (heap s) (Named_addr n)).
Proof.
  unfold setName.
  destruct (isUnnamed _); [discriminate |].
  destruct (isLocalID _) eqn:Hid; [| discriminate].
  destruct (String.eqb_spec (strconv_Itoa (id s))
                            (Name (heap s) (Named_addr n))) as [Heq | Hne];
    simpl; [discriminate |].
  intros Hcall; inversion Hcall; subst. repeat split. congruence.
Qed.

(** A call never touches the name of another entity, and never replaces
    a name that is not empty. *)
Lemma setName_other (f : Function.t) (n : Named) (s s' : state)
    (r : outcome unit) (a : positive) :
  setName f n s = (r, s') ->
  a <> Named_addr n \/ Name (heap s) a <> "" ->
  heap s' !! a = heap s !! a.
Proof.
  unfold setName.
  destruct (isUnnamed _) eqn:Hun.
  - intros Hcall Hcases; inversion Hcall; subst; simpl.
    apply isUnnamed_true in Hun. unfold SetName.
    destruct Hcases as [Hne | Hnamed].
    + rewrite lookup_insert_ne by congruence. reflexivity.
    + destruct (decide (a = Named_addr n)) as [-> | Hne]; [congruence |].
      rewrite lookup_insert_ne by congruence. reflexivity.
  - destruct (isLocalID _); [destruct (negb _) |];
      intros Hcall _; inversion Hcall; subst; reflexivity.
Qed.

Lemma for_range_setName_other (f : Function.t) (l : list Named)
    (s s' : state) (r : outcome unit) (a : positive) :
  for_range (setName f) l s = (r, s') ->
  a ∉ map Named_addr l \/ Name (heap s) a <> "" ->
  heap s' !! a = heap s !! a.
Proof.
  revert s. induction l as [| n l IH]; intros s; simpl.
  - intros Hcall _; inversion Hcall; subst; reflexivity.
  - unfold bind. destruct (setName f n s) as [[[] | e] s0] eqn:Hn.
    + intros Hrest Hcases.
      assert (Hstep : heap s0 !! a = heap s !! a).
      { apply (setName_other _ _ _ _ _ _ Hn).
        destruct Hcases as [Hnotin | Hnamed]; [left | right; exact Hnamed].
        intros ->. apply Hnotin. left. }
      rewrite <- Hstep. apply (IH _ Hrest).
      destruct Hcases as [Hnotin | Hnamed].
      * left. intros Hin. apply Hnotin. right. exact Hin.
      * right. unfold Name in *. rewrite Hstep. exact Hnamed.
    + intros Hcall Hcases; inversion Hcall; subst.
      apply (setName_other _ _ _ _ _ _ Hn).
      destruct Hcases as [Hnotin | Hnamed]; [left | right; exact Hnamed].
      intros ->. apply Hnotin. left.
Qed.

(** *** The loops of [AssignIDs] walk the traversal order *)

(** One checked call is the run over the list of one entity. *)
Lemma check_single (f : Function.t) (n : Named) (s : state) :
  check (setName f n) s = for_range (setName f) [n] s.
Proof.
  rewrite check_same. simpl. unfold bind, ret.
  destruct (setName f n s) as [[[] | e] s']; reflexivity.
Qed.

Lemma number_inst_visited (f : Function.t) (inst : Instruction) (s : state) :
  number_inst f inst s = for_range (setName f) (visited_inst inst) s.
Proof.
  unfold number_inst.
  destruct inst as [a ty | a ty | | | a ty | a ty | a ty | a ty];
    simpl Instruction_as_Named; cbv iota;
    try reflexivity; try apply check_single.
  destruct ty; simpl; try reflexivity; apply check_single.
Qed.

Lemma number_insts_visited (f : Function.t) (insts : list Instruction)
    (s : state) :
  for_range (number_inst f) insts s
  = for_range (setName f) (visited_insts insts) s.
Proof.
  revert s. unfold visited_insts.
  induction insts as [| inst insts IH]; intros s; [reflexivity |].
  simpl for_range. simpl map. simpl concat.
  rewrite for_range_app. unfold bind.
  rewrite number_inst_visited.
  destruct (for_range (setName f) (visited_inst inst) s) as [[a | e] s'];
    [apply IH | reflexivity].
Qed.

Lemma number_term_visited (f : Function.t) (term : Terminator) (s : state) :
  number_term f term s = for_range (setName f) (visited_term term) s.
Proof.
  unfold number_term.
  destruct term as [x | | a ty |]; simpl Terminator_as_Named; cbv iota;
    try reflexivity.
  destruct ty; simpl; try reflexivity; apply check_single.
Qed.

Lemma number_block_visited (f : Function.t) (block : BasicBlock) (s : state) :
  number_block f block s = for_range (setName f) (visited_block block) s.
Proof.
  unfold number_block, visited_block. simpl. unfold bind at 1 3.
  rewrite check_same.
  destruct (setName f (Named_BasicBlock (Block_addr block)) s)
    as [[a | e] s']; [| reflexivity].
  rewrite for_range_app. unfold bind.
  rewrite number_insts_visited.
  destruct (for_range (setName f) (visited_insts (Insts block)) s')
    as [[a' | e] s'']; [apply number_term_visited | reflexivity].
Qed.

Lemma AssignIDs_declaration (f : Function.t) (σ : gmap positive string) :
  Function.Blocks f = [] -> AssignIDs f σ = (None, σ).
Proof. intros Hnil. unfold AssignIDs. rewrite Hnil. reflexivity. Qed.

Lemma AssignIDs_definition (f : Function.t) (σ : gmap positive string) :
  Function.Blocks f <> [] ->
  AssignIDs f σ
  = finish (for_range (setName f) (visit_order f) (mkState 0 ∅ σ)).
Proof.
  intros Hblocks. unfold AssignIDs, visit_order.
  destruct (Function.Blocks f) as [| b bs] eqn:Hbs; [congruence |].
  change (Nat.eqb (length (b :: bs)) 0) with false. cbv iota.
  rewrite for_range_app.
  assert (Hparams : forall s0,
    for_range (fun param => check (setName f (Named_Param (Param_addr param))))
              (Function.Params f) s0
    = for_range (setName f)
        (map (fun param => Named_Param (Param_addr param)) (Function.Params f))
        s0).
  { intros s0. rewrite <- for_range_map. apply for_range_ext.
    intros x s1. apply check_same. }
  assert (Hblks : forall s0,
    for_range (number_block f) (b :: bs) s0
    = for_range (setName f) (concat (map visited_block (b :: bs))) s0).
  { intros s0. rewrite <- for_range_concat. apply for_range_ext.
    intros x s1. apply number_block_visited. }
  unfold bind. rewrite Hparams.
  destruct (for_range (setName f) _ (mkState 0 ∅ σ)) as [[a | e] s0].
  - rewrite Hblks.
    destruct (for_range (setName f) _ s0) as [r s1]. reflexivity.
  - reflexivity.
Qed.

End NumberingFacts.

(** C1, as stated, fails: the pass does not leave out every instruction
    whose result type is void.  A load through an alloca of element type
    void has the type void; the order of the claim leaves it out, and
    [AssignIDs] names it "2". *)
Lemma void_load_is_numbered :
  InstAlloca.Type_ (NewAlloca types.Void)
  = Ok (pointer_to types.Void,
        InstAlloca.set_Typ (Some (types.NewPointer types.Void))
          (NewAlloca types.Void))
  /\ InstLoad.Type_ (NewLoad (operand (pointer_to types.Void) "1"))
     = Ok (types.Void,
           InstLoad.set_Typ (Some types.Void)
             (NewLoad (operand (pointer_to types.Void) "1")))
  /\ non_void_order void_load_function
     = [Named_BasicBlock 1; Named_InstAlloca 2]
  /\ @AssignIDs example_collaborators void_load_function ∅
     = (None, {[ 1%positive := "0"; 2%positive := "1"; 3%positive := "2" ]})
  /\ ~ (forall (f : Function.t) (σ : gmap positive string),
          Function.Blocks f <> [] ->
          @AssignIDs example_collaborators f σ
          = finish (@for_range Named (@setName example_collaborators f)
                      (non_void_order f) (mkState 0 ∅ σ))).
Proof.
  split; [reflexivity |]. split; [reflexivity |]. split; [reflexivity |].
  split; [vm_compute; reflexivity |].
  intros Hclaim.
  assert (Hblocks : Function.Blocks void_load_function <> []) by discriminate.
  specialize (Hclaim void_load_function ∅ Hblocks).
  vm_compute in Hclaim. discriminate Hclaim.
Qed.

(** C1 (amended): on a function with at least one block, [AssignIDs] is
    the sequence of calls of [setName], from counter 0, on the
    parameters in order and then, block after block, on the block, on
    each of its instructions that has a result name, a call of type void
    left out, and on its terminator when it is an invoke whose type is
    not void.  Of the instructions, exactly the stores, the fences and
    the calls of type void are left out: an alloca, a load, a cmpxchg, an
    atomicrmw and a getelementptr are visited whatever their type is.  A
    call of [setName] on an unnamed entity names it after the counter and
    adds one to the counter, a call on an entity whose numeric name is
    the counter adds one to the counter, and a call on an entity with
    another name leaves the counter alone.  On parameters [unnamed, "x"]
    and one block with an unnamed alloca, an unnamed load and a return of
    no value, the pass visits the two parameters, the block, the alloca
    and the load, and names them "0", "x", "1", "2" and "3".  On a block
    with a call of type void, a call of type [i32], a store, a fence and
    an invoke, the pass names the block "0" and the second call "1", and
    the invoke "2" when its type is not void. *)
Theorem AssignIDs_order_and_counter {C : Collaborators} :
  (forall (f : Function.t) (σ : gmap positive string),
     Function.Blocks f <> [] ->
     AssignIDs f σ
     = finish (for_range (setName f) (visit_order f) (mkState 0 ∅ σ)))
  /\ (forall inst : Instruction,
        visited_inst inst = []
        <-> inst = Inst_Store \/ inst = Inst_Fence
            \/ exists a, inst = Inst_Call a types.Void)
  /\ (forall term : Terminator,
        visited_term term <> []
        <-> exists a ty, term = Term_Invoke a ty /\ ty <> types.Void)
  /\ (forall (f : Function.t) (n : Named) (s : state),
        0 <= id s < 2 ^ 63 - 1 ->
        (Name (heap s) (Named_addr n) = "" ->
         setName f n s
         = (Return tt,
            mkState (id s + 1)
                    (<[strconv_Itoa (id s) := Named_addr n]> (names s))
                    (<[Named_addr n := strconv_Itoa (id s)]> (heap s))))
        /\ (isLocalID (Name (heap s) (Named_addr n)) = true ->
            Name (heap s) (Named_addr n) = strconv_Itoa (id s) ->
            setName f n s
            = (Return tt, mkState (id s + 1) (names s) (heap s)))
        /\ (Name (heap s) (Named_addr n) <> "" ->
            isLocalID (Name (heap s) (Named_addr n)) = false ->
            setName f n s = (Return tt, s)))
  /\ visit_order example_function
     = [Named_Param 1; Named_Param 2; Named_BasicBlock 3;
        Named_InstAlloca 4; Named_InstLoad 5]
  /\ AssignIDs example_function example_store
     = (None,
        {[ 1%positive := "0"; 2%positive := "x"; 3%positive := "1";
           4%positive := "2"; 5%positive := "3" ]})
  /\ AssignIDs (example_calls (Term_Invoke 4 types.Void)) ∅
     = (None, {[ 1%positive := "0"; 3%positive := "1" ]})
  /\ AssignIDs (example_calls (Term_Invoke 4 i64)) ∅
     = (None, {[ 1%positive := "0"; 3%positive := "1"; 4%positive := "2" ]})
  /\ AssignIDs void_load_function ∅
     = (None, {[ 1%positive := "0"; 2%positive := "1"; 3%positive := "2" ]}).
Proof.
  split; [| split; [| split; [| split]]].
  - intros f σ Hblocks. apply AssignIDs_definition. exact Hblocks.
  - intros inst. split.
    + destruct inst as [a ty | a ty | | | a ty | a ty | a ty | a ty]; simpl;
        try discriminate; auto.
      destruct ty; try discriminate. intros _. right; right. exists a.
      reflexivity.
    + intros [-> | [-> | [a ->]]]; reflexivity.
  - intros term. split.
    + destruct term as [x | | a ty |]; simpl; try congruence.
      destruct ty; try congruence; intros _; eexists _, _;
        (split; [reflexivity | discriminate]).
    + intros (a & ty & -> & Hty). destruct ty; simpl; congruence.
  - intros f n s Hrange. rewrite <- (incr_small _ Hrange).
    split; [| split].
    + apply setName_unnamed.
    + apply setName_numeric_match.
    + apply setName_named.
  - split; [reflexivity |].
    repeat split; vm_compute; reflexivity.
Qed.

Lemma AssignIDs_order_and_counter_witness :
  @AssignIDs example_collaborators example_function example_store
  = finish (@for_range Named (@setName example_collaborators example_function)
              (visit_order example_function) (mkState 0 ∅ example_store))
  /\ @setName example_collaborators example_function (Named_InstLoad 5)
       (mkState 3 ∅ example_store)
     = (Return tt,
        mkState 4 {[ "3" := 5%positive ]}
                (<[ 5%positive := "3" ]> example_store)).
Proof.
  destruct (@AssignIDs_order_and_counter example_collaborators)
    as (Horder & _ & _ & Hstep & _).
  split.
  - apply (Horder example_function example_store). discriminate.
  - destruct (Hstep example_function (Named_InstLoad 5)
                    (mkState 3 ∅ example_store)) as (Hunnamed & _).
    + simpl. lia.
    + apply Hunnamed. reflexivity.
Defined.

(** C2: when the pass reaches an entity whose name is a bare decimal
    integer, it goes on, with the counter incremented and no name
    changed, if the name is the decimal rendering of the counter;
    otherwise it returns at once the identifier-mismatch error, which
    carries the identifier of the function, the expected identifier and
    the actual one.  The call of [setName] returns without error exactly
    when the name is the rendering of the counter. *)
Theorem numeric_name_must_match {C : Collaborators} (f : Function.t)
    (σ : gmap positive string) (pre post : list Named) (n : Named)
    (s : state) :
  Function.Blocks f <> [] ->
  visit_order f = pre ++ n :: post ->
  for_range (setName f) pre (mkState 0 ∅ σ) = (Return tt, s) ->
  isLocalID (Name (heap s) (Named_addr n)) = true ->
  (Name (heap s) (Named_addr n) = strconv_Itoa (id s) ->
   AssignIDs f σ
   = finish (for_range (setName f) post
               (mkState (incr (id s)) (names s) (heap s))))
  /\ (Name (heap s) (Named_addr n) <> strconv_Itoa (id s) ->
      AssignIDs f σ
      = (Some ("invalid local ID in function "
               +:+ fmt_q (enc_Global (Function.GlobalName f))
               +:+ ", expected " +:+ enc_Local (strconv_Itoa (id s))
               +:+ ", got " +:+ enc_Local (Name (heap s) (Named_addr n))),
         heap s))
  /\ ((exists s', setName f n s = (Return tt, s'))
      <-> Name (heap s) (Named_addr n) = strconv_Itoa (id s)).
Proof.
  intros Hblocks Horder Hpre Hid.
  assert (Hrun : AssignIDs f σ
                 = finish ((setName f n ;; for_range (setName f) post) s)).
  { rewrite (AssignIDs_definition _ _ Hblocks), Horder, for_range_app.
    unfold bind at 1. rewrite Hpre. reflexivity. }
  rewrite Hrun. unfold bind.
  split; [| split].
  - intros Hgot. rewrite (setName_numeric_match _ _ _ Hid Hgot).
    reflexivity.
  - intros Hgot. rewrite (setName_numeric_mismatch _ _ _ Hid Hgot).
    reflexivity.
  - split.
    + intros [s' Hcall].
      destruct (decide (Name (heap s) (Named_addr n) = strconv_Itoa (id s)))
        as [Heq | Hne]; [exact Heq |].
      rewrite (setName_numeric_mismatch _ _ _ Hid Hne) in Hcall.
      discriminate Hcall.
    + intros Hgot. eexists. apply (setName_numeric_match _ _ _ Hid Hgot).
Qed.

Lemma numeric_name_must_match_witness :
  @AssignIDs example_collaborators example_function example_store_mismatch
  = (Some ("invalid local ID in function "
           +:+ double_quote +:+ "@f" +:+ double_quote
           +:+ ", expected %3, got %5"),
     {[ 1%positive := "0"; 2%positive := "x"; 3%positive := "1";
        4%positive := "2"; 5%positive := "5" ]})
  /\ @AssignIDs example_collaborators example_function
       {[ 2%positive := "x"; 5%positive := "3" ]}
     = (None,
        {[ 1%positive := "0"; 2%positive := "x"; 3%positive := "1";
           4%positive := "2"; 5%positive := "3" ]}).
Proof.
  split.
  - destruct (@numeric_name_must_match example_collaborators
                example_function example_store_mismatch
                [Named_Param 1; Named_Param 2; Named_BasicBlock 3;
                 Named_InstAlloca 4]
                [] (Named_InstLoad 5)
                (mkState 3
                   {[ "0" := 1%positive; "1" := 3%positive;
                      "2" := 4%positive ]}
                   {[ 1%positive := "0"; 2%positive := "x";
                      3%positive := "1"; 4%positive := "2";
                      5%positive := "5" ]}))
      as (_ & Hbad & _).
    + discriminate.
    + reflexivity.
    + vm_compute. reflexivity.
    + reflexivity.
    + etransitivity; [apply Hbad | vm_compute; reflexivity].
      vm_compute. discriminate.
  - destruct (@numeric_name_must_match example_collaborators
                example_function {[ 2%positive := "x"; 5%positive := "3" ]}
                [Named_Param 1; Named_Param 2; Named_BasicBlock 3;
                 Named_InstAlloca 4]
                [] (Named_InstLoad 5)
                (mkState 3
                   {[ "0" := 1%positive; "1" := 3%positive;
                      "2" := 4%positive ]}
                   {[ 1%positive := "0"; 2%positive := "x";
                      3%positive := "1"; 4%positive := "2";
                      5%positive := "3" ]}))
      as (Hgood & _ & _).
    + discriminate.
    + reflexivity.
    + vm_compute. reflexivity.
    + reflexivity.
    + etransitivity; [apply Hgood | vm_compute; reflexivity].
      vm_compute. reflexivity.
Defined.

(** C3: when [AssignIDs] returns an error, the traversal order splits at
    the entity of the first mismatch: the calls of [setName] before it
    all returned, and the store that the caller observes is the store
    they left.  So every entity that was unnamed when visited before the
    mismatch carries the counter it was given, and the name of an entity
    that was not visited before the mismatch, or that carried a name, is
    what it was before the pass. *)
Theorem mismatch_aborts_without_rollback {C : Collaborators}
    (f : Function.t) (σ σ' : gmap positive string) (e : string) :
  AssignIDs f σ = (Some e, σ') ->
  exists (pre : list Named) (n : Named) (post : list Named) (s : state),
    visit_order f = pre ++ n :: post
    /\ for_range (setName f) pre (mkState 0 ∅ σ) = (Return tt, s)
    /\ σ' = heap s
    /\ isLocalID (Name σ' (Named_addr n)) = true
    /\ Name σ' (Named_addr n) <> strconv_Itoa (id s)
    /\ e = mismatch_error f (strconv_Itoa (id s)) (Name σ' (Named_addr n))
    /\ (forall (p1 : list Named) (m : Named) (p2 : list Named) (s1 : state),
          pre = p1 ++ m :: p2 ->
          for_range (setName f) p1 (mkState 0 ∅ σ) = (Return tt, s1) ->
          Name (heap s1) (Named_addr m) = "" ->
          Name σ' (Named_addr m) = strconv_Itoa (id s1))
    /\ (forall a : positive,
          a ∉ map Named_addr pre \/ Name σ a <> "" -> σ' !! a = σ !! a).
Proof.
  intros Hcall.
  destruct (decide (Function.Blocks f = [])) as [Hnil | Hblocks].
  { rewrite (AssignIDs_declaration _ _ Hnil) in Hcall. discriminate Hcall. }
  rewrite (AssignIDs_definition _ _ Hblocks) in Hcall.
  destruct (for_range (setName f) (visit_order f) (mkState 0 ∅ σ))
    as [[[] | e0] s0] eqn:Hrun; unfold finish in Hcall; simpl in Hcall;
    inversion Hcall; subst; clear Hcall.
  destruct (for_range_error _ _ _ _ _ Hrun)
    as (pre & n & post & s & Horder & Hpre & Hn).
  destruct (setName_error _ _ _ _ _ Hn) as (-> & Hid & Hne & ->).
  exists pre, n, post, s.
  repeat (split; [solve [assumption | reflexivity] |]).
  split.
  - intros p1 m p2 s1 -> Hp1 Hunnamed.
    rewrite for_range_app in Hpre. unfold bind at 1 in Hpre.
    rewrite Hp1 in Hpre. simpl in Hpre. unfold bind in Hpre.
    rewrite (setName_unnamed _ _ _ Hunnamed) in Hpre.
    assert (Hkept :
      heap s !! Named_addr m
      = <[Named_addr m := strconv_Itoa (id s1)]> (heap s1) !! Named_addr m).
    { apply (for_range_setName_other _ _ _ _ _ _ Hpre). right. simpl.
      unfold Name. rewrite lookup_insert_eq. simpl.
      apply strconv_Itoa_nonempty. }
    unfold Name. rewrite Hkept, lookup_insert_eq. reflexivity.
  - intros a Hcases.
    apply (for_range_setName_other _ _ _ _ _ _ Hpre). exact Hcases.
Qed.

Lemma mismatch_aborts_without_rollback_witness :
  exists (pre : list Named) (n : Named) (post : list Named) (s : state),
    visit_order example_function = pre ++ n :: post
    /\ @for_range Named (@setName example_collaborators example_function) pre
         (mkState 0 ∅ example_store_mismatch) = (Return tt, s)
    /\ {[ 1%positive := "0"; 2%positive := "x"; 3%positive := "1";
          4%positive := "2"; 5%positive := "5" ]} = heap s.
Proof.
  destruct (@mismatch_aborts_without_rollback example_collaborators
              example_function example_store_mismatch
              {[ 1%positive := "0"; 2%positive := "x"; 3%positive := "1";
                 4%positive := "2"; 5%positive := "5" ]}
              ("invalid local ID in function "
               +:+ double_quote +:+ "@f" +:+ double_quote
               +:+ ", expected %3, got %5"))
    as (pre & n & post & s & Horder & Hpre & Hstore & _).
  - vm_compute. reflexivity.
  - exists pre, n, post, s. auto.
Defined.

(** ** Textual emission *)

Lemma append_assoc (s1 s2 s3 : string) :
  (s1 +:+ s2) +:+ s3 = s1 +:+ (s2 +:+ s3).
Proof.
  induction s1 as [| c s1 IH]; [reflexivity |].
  change (String c ((s1 +:+ s2) +:+ s3) = String c (s1 +:+ s2 +:+ s3)).
  rewrite IH. reflexivity.
Qed.

Lemma append_empty_r (s : string) : s +:+ "" = s.
Proof.
  induction s as [| c s IH]; [reflexivity |].
  change (String c (s +:+ "") = String c s). rewrite IH. reflexivity.
Qed.

Lemma write_if (b : bool) (x buf : string) :
  (if b then WriteString x buf else buf) = buf +:+ (if b then x else "").
Proof. destruct b; [reflexivity | rewrite append_empty_r; reflexivity]. Qed.

Lemma write_option {A : Type} (o : option A) (g : A -> string) (buf : string) :
  match o with Some c => WriteString (g c) buf | None => buf end
  = buf +:+ match o with Some c => g c | None => "" end.
Proof. destruct o; [reflexivity | rewrite append_empty_r; reflexivity]. Qed.

Lemma concat_empty_cons (x : string) (xs : list string) :
  String.concat "" (x :: xs) = x +:+ String.concat "" xs.
Proof.
  destruct xs as [| y ys].
  - simpl. rewrite append_empty_r. reflexivity.
  - reflexivity.
Qed.

Lemma range_write_each {A : Type} (g : A -> string) (l : list A) (i : nat)
    (buf : string) :
  range_write (fun _ x buf => WriteString (g x) buf) i l buf
  = buf +:+ String.concat "" (map g l).
Proof.
  revert i buf. induction l as [| x l IH]; intros i buf.
  - simpl. rewrite append_empty_r. reflexivity.
  - simpl range_write. simpl map. rewrite IH, concat_empty_cons.
    unfold WriteString. rewrite append_assoc. reflexivity.
Qed.

Lemma concat_separator (sep x : string) (xs : list string) :
  String.concat sep (x :: xs)
  = x +:+ String.concat "" (map (fun y => sep +:+ y) xs).
Proof.
  revert x. induction xs as [| y xs IH]; intros x.
  - simpl. rewrite append_empty_r. reflexivity.
  - change (String.concat sep (x :: y :: xs))
      with (x +:+ sep +:+ String.concat sep (y :: xs)).
    rewrite IH. simpl map. rewrite concat_empty_cons, append_assoc.
    reflexivity.
Qed.

(** The loop over the parameters writes the separator before every
    parameter but the first. *)
Lemma range_write_separated {A : Type} (g : A -> string) (l : list A)
    (i : nat) (buf : string) :
  range_write
    (fun i x buf =>
       let buf := if negb (Nat.eqb i 0) then WriteString ", " buf else buf in
       WriteString (g x) buf) i l buf
  = buf +:+ match i with
            | O => String.concat ", " (map g l)
            | S _ => String.concat "" (map (fun y => ", " +:+ y) (map g l))
            end.
Proof.
  revert i buf. induction l as [| x l IH]; intros i buf.
  - simpl. destruct i; rewrite append_empty_r; reflexivity.
  - simpl range_write. rewrite IH. simpl map. destruct i as [| i].
    + rewrite concat_separator. simpl negb. cbv iota.
      unfold WriteString. rewrite append_assoc. reflexivity.
    + simpl negb. cbv iota. unfold WriteString.
      rewrite concat_empty_cons, !append_assoc. reflexivity.
Qed.

Section EmissionFacts.

Context {C : Collaborators}.

Lemma headerString_parts (σ : gmap positive string) (hdr : Function.t) :
  headerString σ hdr
  = header_front hdr +:+ "(" +:+ params_text σ hdr +:+ ")"
    +:+ header_back hdr.
Proof.
  assert (Hvariadic : forall buf,
    (if types.Variadic (Function.Sig hdr)
     then WriteString "..."
            (if Nat.ltb 0 (length (Function.Params hdr))
             then WriteString ", " buf else buf)
     else buf)
    = buf +:+ (if types.Variadic (Function.Sig hdr)
               then match Function.Params hdr with
                    | [] => "" | _ :: _ => ", " end +:+ "..."
               else "")).
  { intros buf. destruct (types.Variadic (Function.Sig hdr));
      [| rewrite append_empty_r; reflexivity].
    destruct (Function.Params hdr); simpl; unfold WriteString;
      [| rewrite append_assoc]; reflexivity. }
  unfold headerString, header_front, header_back, params_text.
  cbv zeta.
  rewrite Hvariadic, !write_option, !write_if.
  rewrite (range_write_each (fun attr => " " +:+ FuncAttribute_String attr)).
  rewrite (range_write_separated (Param_Def σ)).
  rewrite (range_write_each (fun attr => " " +:+ ReturnAttribute_String attr)).
  unfold WriteString. rewrite !append_assoc. reflexivity.
Qed.

Lemma Def_declaration (σ : gmap positive string) (f : Function.t) :
  Function.Blocks f = [] ->
  Def σ f = "declare" +:+ linkage_clause f +:+ headerString σ f.
Proof.
  intros Hnil. unfold Def, linkage_clause. rewrite Hnil. simpl.
  destruct (Function.Linkage f); reflexivity.
Qed.

Lemma bodyString_lines (σ : gmap positive string) (f : Function.t) :
  bodyString σ f
  = "{" +:+ newline
    +:+ String.concat ""
          (map (fun block => BasicBlock_Def σ block +:+ newline)
               (Function.Blocks f))
    +:+ "}".
Proof.
  unfold bodyString. cbv zeta.
  rewrite (range_write_each (fun block => BasicBlock_Def σ block +:+ newline)).
  unfold WriteString. simpl. rewrite !append_assoc. reflexivity.
Qed.

Lemma Def_definition (σ : gmap positive string) (f : Function.t) :
  Function.Blocks f <> [] ->
  Def σ f
  = "define" +:+ linkage_clause f +:+ headerString σ f
    +:+ " " +:+ bodyString σ f.
Proof.
  intros Hblocks. unfold Def, linkage_clause.
  destruct (Function.Blocks f) as [| b bs]; [congruence |].
  change (Nat.eqb (length (b :: bs)) 0) with false. cbv iota zeta.
  unfold WriteString.
  destruct (Function.Linkage f); simpl negb; cbv iota;
    rewrite ?append_assoc; reflexivity.
Qed.

End EmissionFacts.

(** C7: a function without blocks is rendered as the keyword "declare",
    the linkage clause and the header, and nothing more; a function with
    blocks is rendered as the keyword "define", the linkage clause, the
    header, a space and the body, which is an opening brace and a line
    feed, each block definition followed by a line feed, and a closing
    brace.  Giving a function without blocks its first block turns the
    first rendering into the second. *)
Theorem Def_declare_or_define {C : Collaborators}
    (σ : gmap positive string) (f : Function.t) :
  (Function.Blocks f = [] ->
   Def σ f = "declare" +:+ linkage_clause f +:+ headerString σ f)
  /\ (Function.Blocks f <> [] ->
      Def σ f
      = "define" +:+ linkage_clause f +:+ headerString σ f +:+ " "
        +:+ "{" +:+ newline
        +:+ String.concat ""
              (map (fun block => BasicBlock_Def σ block +:+ newline)
                   (Function.Blocks f))
        +:+ "}")
  /\ (forall block : BasicBlock,
        Function.Blocks f = [] ->
        Def σ (Function.set_Blocks [block] f)
        = "define" +:+ linkage_clause f +:+ headerString σ f +:+ " "
          +:+ "{" +:+ newline +:+ BasicBlock_Def σ block +:+ newline +:+ "}").
Proof.
  split; [| split].
  - apply Def_declaration.
  - intros Hblocks. rewrite (Def_definition _ _ Hblocks), bodyString_lines.
    reflexivity.
  - intros block _.
    rewrite (Def_definition σ (Function.set_Blocks [block] f))
      by discriminate.
    rewrite bodyString_lines. simpl Function.Blocks. simpl map.
    rewrite concat_empty_cons. simpl String.concat.
    rewrite append_empty_r, !append_assoc. reflexivity.
Qed.

Lemma Def_declare_or_define_witness :
  @Def example_collaborators example_store
    (Function.set_Blocks [] example_function)
  = "declare void @f(i32 %, i32 %x)"
  /\ @Def example_collaborators example_store example_function
     = "define void @f(i32 %, i32 %x) {" +:+ newline +:+ ":" +:+ newline
       +:+ "}"
  /\ @Def example_collaborators example_store
       (Function.set_Blocks [example_block]
          (Function.set_Blocks [] example_function))
     = "define void @f(i32 %, i32 %x) {" +:+ newline +:+ ":" +:+ newline
       +:+ "}".
Proof.
  destruct (@Def_declare_or_define example_collaborators example_store
              (Function.set_Blocks [] example_function))
    as (Hdeclare & _ & Happend).
  destruct (@Def_declare_or_define example_collaborators example_store
              example_function) as (_ & Hdefine & _).
  split; [| split].
  - etransitivity; [apply Hdeclare; reflexivity | vm_compute; reflexivity].
  - etransitivity; [apply Hdefine; discriminate | vm_compute; reflexivity].
  - etransitivity;
      [apply (Happend example_block); reflexivity | vm_compute; reflexivity].
Defined.

(** C8, as stated, fails: a declaration whose linkage is internal, which
    is neither external nor extern_weak, is rendered with its linkage
    keyword. *)
Lemma declaration_writes_internal_linkage :
  Function.Blocks internal_declaration = []
  /\ Function.Linkage internal_declaration = enum.LinkageInternal
  /\ @Def example_collaborators ∅ internal_declaration
     = "declare internal void @f()"
  /\ ~ (forall (σ : gmap positive string) (f : Function.t),
          Function.Blocks f = [] ->
          Function.Linkage f <> enum.LinkageExternal ->
          Function.Linkage f <> enum.LinkageExternWeak ->
          @Def example_collaborators σ f
          = "declare" +:+ @headerString example_collaborators σ f).
Proof.
  split; [reflexivity |]. split; [reflexivity |].
  split; [vm_compute; reflexivity |].
  intros Hclaim.
  specialize (Hclaim ∅ internal_declaration eq_refl).
  vm_compute in Hclaim.
  assert (Hfalse : "declare internal void @f()" = "declare void @f()")
    by (apply Hclaim; discriminate).
  discriminate Hfalse.
Qed.

(** C8 (amended): a function without blocks is rendered without linkage
    clause exactly when its linkage is the zero value [LinkageNone]; any
    other linkage, external or not, is written after the keyword
    "declare". *)
Theorem declaration_linkage_clause {C : Collaborators}
    (σ : gmap positive string) (f : Function.t) :
  Function.Blocks f = [] ->
  (Function.Linkage f = enum.LinkageNone ->
   Def σ f = "declare" +:+ headerString σ f)
  /\ (Function.Linkage f <> enum.LinkageNone ->
      Def σ f
      = "declare " +:+ Linkage_String (Function.Linkage f)
        +:+ headerString σ f).
Proof.
  intros Hnil. rewrite (Def_declaration _ _ Hnil). unfold linkage_clause.
  split.
  - intros ->. reflexivity.
  - intros Hset. destruct (Function.Linkage f); [congruence | ..];
      reflexivity.
Qed.

Lemma declaration_linkage_clause_witness :
  @Def example_collaborators ∅ variadic_declaration
  = "declare" +:+ @headerString example_collaborators ∅ variadic_declaration
  /\ @Def example_collaborators ∅ internal_declaration
     = "declare " +:+ "internal"
       +:+ @headerString example_collaborators ∅ internal_declaration.
Proof.
  split.
  - apply (@declaration_linkage_clause example_collaborators ∅
             variadic_declaration eq_refl).
    reflexivity.
  - apply (@declaration_linkage_clause example_collaborators ∅
             internal_declaration eq_refl).
    discriminate.
Defined.

(** C10: the header is the text before the parenthesis, the parameter
    list between parentheses and the text after it, where the parameter
    list is the parameter definitions separated by a comma and a space,
    followed for a variadic signature by the ellipsis, itself after a
    comma and a space exactly when there is a parameter.  A variadic
    function without parameters has the parameter list "(...)". *)
Theorem header_parameter_list {C : Collaborators}
    (σ : gmap positive string) (hdr : Function.t) :
  headerString σ hdr
  = header_front hdr +:+ "("
    +:+ (String.concat ", " (map (Param_Def σ) (Function.Params hdr))
         +:+ (if types.Variadic (Function.Sig hdr)
              then (if Nat.ltb 0 (length (Function.Params hdr))
                    then ", " else "") +:+ "..."
              else ""))
    +:+ ")" +:+ header_back hdr
  /\ (types.Variadic (Function.Sig hdr) = true ->
      Function.Params hdr = [] ->
      headerString σ hdr
      = header_front hdr +:+ "(...)" +:+ header_back hdr).
Proof.
  split.
  - rewrite headerString_parts. unfold params_text.
    destruct (Function.Params hdr); reflexivity.
  - intros Hvariadic Hnil. rewrite headerString_parts. unfold params_text.
    rewrite Hvariadic, Hnil. reflexivity.
Qed.

Lemma header_parameter_list_witness :
  @headerString example_collaborators ∅ variadic_declaration
  = " i32 @printf(...)".
Proof.
  etransitivity.
  - apply (proj2 (@header_parameter_list example_collaborators ∅
                    variadic_declaration)); reflexivity.
  - vm_compute. reflexivity.
Defined.

(** * Further properties of the numbering pass *)

Lemma pretty_N_char_digit (d : N) : is_digit (pretty_N_char d) = true.
Proof. unfold pretty_N_char. repeat case_match; reflexivity. Qed.

Lemma pretty_N_go_digits (x : N) (s : string) :
  all_digits s = true -> all_digits (pretty_N_go x s) = true.
Proof.
  revert s. induction (N.lt_wf_0 x) as [x _ IH]. intros s Hs.
  destruct (decide (x = 0%N)) as [-> | Hpos].
  - rewrite pretty_N_go_0. exact Hs.
  - rewrite pretty_N_go_step by lia. apply IH.
    + apply N.div_lt; lia.
    + simpl. rewrite pretty_N_char_digit. exact Hs.
Qed.

(** The rendering of a counter that is not negative is a local ID. *)
Lemma strconv_Itoa_isLocalID (k : Z) :
  0 <= k -> isLocalID (strconv_Itoa k) = true.
Proof.
  intros Hk. unfold isLocalID. apply andb_true_iff. split.
  - unfold strconv_Itoa, pretty, pretty_Z. destruct k as [| p | p];
      [reflexivity | | lia].
    unfold pretty, pretty_positive, pretty, pretty_N.
    rewrite decide_False by discriminate.
    apply pretty_N_go_digits. reflexivity.
  - apply negb_true_iff, Nat.eqb_neq. intros Hlen.
    apply (strconv_Itoa_nonempty k).
    destruct (strconv_Itoa k); [reflexivity | discriminate Hlen].
Qed.

Lemma Name_insert_eq (σ : gmap positive string) (a : positive)
    (name : string) :
  Name (<[a := name]> σ) a = name.
Proof. unfold Name. rewrite lookup_insert_eq. reflexivity. Qed.

Lemma Name_insert_ne (σ : gmap positive string) (a b : positive)
    (name : string) :
  a <> b -> Name (<[a := name]> σ) b = Name σ b.
Proof. intros Hne. unfold Name. rewrite lookup_insert_ne by exact Hne. reflexivity. Qed.

Section NumberingMore.

Context {C : Collaborators}.

(** The four ways a call of [setName] can go. *)
Lemma setName_cases (f : Function.t) (n : Named) (s : state) :
  (Name (heap s) (Named_addr n) = ""
   /\ setName f n s
      = (Return tt,
         mkState (incr (id s))
                 (<[strconv_Itoa (id s) := Named_addr n]> (names s))
                 (<[Named_addr n := strconv_Itoa (id s)]> (heap s))))
  \/ (isLocalID (Name (heap s) (Named_addr n)) = true
      /\ Name (heap s) (Named_addr n) = strconv_Itoa (id s)
      /\ setName f n s = (Return tt, mkState (incr (id s)) (names s) (heap s)))
  \/ (isLocalID (Name (heap s) (Named_addr n)) = true
      /\ Name (heap s) (Named_addr n) <> strconv_Itoa (id s)
      /\ setName f n s
         = (Error (mismatch_error f (strconv_Itoa (id s))
                                  (Name (heap s) (Named_addr n))), s))
  \/ (Name (heap s) (Named_addr n) <> ""
      /\ isLocalID (Name (heap s) (Named_addr n)) = false
      /\ setName f n s = (Return tt, s)).
Proof.
  destruct (decide (Name (heap s) (Named_addr n) = "")) as [Hun | Hne].
  { left. split; [exact Hun | apply setName_unnamed; exact Hun]. }
  destruct (isLocalID (Name (heap s) (Named_addr n))) eqn:Hid.
  - destruct (decide (Name (heap s) (Named_addr n) = strconv_Itoa (id s)))
      as [Heq | Hneq].
    + right; left. repeat split; [exact Heq |].
      apply setName_numeric_match; assumption.
    + right; right; left. repeat split; [exact Hneq |].
      apply setName_numeric_mismatch; assumption.
  - right; right; right. repeat split; [exact Hne |].
    apply setName_named; assumption.
Qed.

(** A name that is not empty survives the rest of the pass. *)
Lemma for_range_setName_keeps (f : Function.t) (l : list Named)
    (s s' : state) (r : outcome unit) (a : positive) :
  for_range (setName f) l s = (r, s') ->
  Name (heap s) a <> "" ->
  Name (heap s') a = Name (heap s) a.
Proof.
  intros Hrun Hnamed. unfold Name.
  rewrite (for_range_setName_other _ _ _ _ _ _ Hrun); [reflexivity |].
  right. exact Hnamed.
Qed.

Lemma AssignIDs_success (f : Function.t) (σ σ' : gmap positive string) :
  Function.Blocks f <> [] ->
  AssignIDs f σ = (None, σ') ->
  exists s',
    for_range (setName f) (visit_order f) (mkState 0 ∅ σ) = (Return tt, s')
    /\ heap s' = σ'.
Proof.
  intros Hblocks Hcall. rewrite (AssignIDs_definition _ _ Hblocks) in Hcall.
  destruct (for_range (setName f) (visit_order f) (mkState 0 ∅ σ))
    as [[[] | e] s'] eqn:Hrun; unfold finish in Hcall; simpl in Hcall;
    inversion Hcall; subst.
  exists s'. split; reflexivity.
Qed.

(** A run that returns, from a counter that cannot overflow. *)
Lemma for_range_setName_numbers (f : Function.t) (l : list Named)
    (s s' : state) :
  for_range (setName f) l s = (Return tt, s') ->
  0 <= id s -> id s + Z.of_nat (length l) < 2 ^ 63 ->
  id s <= id s' <= id s + Z.of_nat (length l)
  /\ Forall (fun n => Name (heap s') (Named_addr n) <> "") l
  /\ names_in (heap s') (numbered (heap s') l)
     = map strconv_Itoa (seqZ (id s) (id s' - id s)).
Proof.
  revert s. induction l as [| n l IH]; intros s Hrun Hlo Hhi.
  - simpl in Hrun. inversion Hrun; subst.
    split; [simpl; lia |]. split; [constructor |].
    rewrite Z.sub_diag. reflexivity.
  - simpl in Hrun. unfold bind in Hrun.
    rewrite length_cons, Nat2Z.inj_succ in Hhi.
    assert (Hincr : incr (id s) = id s + 1) by (apply incr_small; lia).
    unfold numbered, names_in in *. rewrite filter_cons.
    destruct (setName_cases f n s)
      as [(Hun & Hstep) | [(Hid & Heq & Hstep) | [(Hid & Hneq & Hstep)
         | (Hne & Hid & Hstep)]]]; rewrite Hstep in Hrun.
    + destruct (IH _ Hrun) as (Hbound & Hall & Hnames);
        [simpl; lia | simpl; lia |]. simpl in Hbound.
      assert (Hfinal : Name (heap s') (Named_addr n) = strconv_Itoa (id s)).
      { rewrite (for_range_setName_keeps _ _ _ _ _ _ Hrun); simpl;
          rewrite Name_insert_eq; [reflexivity | apply strconv_Itoa_nonempty]. }
      split; [simpl length; lia |]. split.
      * constructor; [| exact Hall]. rewrite Hfinal.
        apply strconv_Itoa_nonempty.
      * rewrite decide_True
          by (rewrite Hfinal; apply strconv_Itoa_isLocalID; exact Hlo).
        simpl map. rewrite Hfinal, Hnames. simpl id.
        rewrite (seqZ_cons (id s)) by lia. simpl map.
        repeat f_equal; lia.
    + destruct (IH _ Hrun) as (Hbound & Hall & Hnames);
        [simpl; lia | simpl; lia |]. simpl in Hbound.
      assert (Hfinal : Name (heap s') (Named_addr n) = strconv_Itoa (id s)).
      { rewrite (for_range_setName_keeps _ _ _ _ _ _ Hrun); simpl;
          [exact Heq | rewrite Heq; apply strconv_Itoa_nonempty]. }
      split; [simpl length; lia |]. split.
      * constructor; [| exact Hall]. rewrite Hfinal.
        apply strconv_Itoa_nonempty.
      * rewrite decide_True
          by (rewrite Hfinal; apply strconv_Itoa_isLocalID; exact Hlo).
        simpl map. rewrite Hfinal, Hnames. simpl id.
        rewrite (seqZ_cons (id s)) by lia. simpl map.
        repeat f_equal; lia.
    + discriminate Hrun.
    + destruct (IH _ Hrun) as (Hbound & Hall & Hnames); [lia | lia |].
      assert (Hfinal : Name (heap s') (Named_addr n)
                       = Name (heap s) (Named_addr n)).
      { apply (for_range_setName_keeps _ _ _ _ _ _ Hrun). exact Hne. }
      split; [simpl length; lia |]. split.
      * constructor; [| exact Hall]. rewrite Hfinal. exact Hne.
      * rewrite decide_False by (rewrite Hfinal, Hid; discriminate).
        exact Hnames.
Qed.

(** A run that returns is replayed without change on any store that
    gives the visited entities the names the run left them. *)
Lemma for_range_setName_replay (f : Function.t) (l : list Named)
    (s s' : state) :
  for_range (setName f) l s = (Return tt, s') ->
  0 <= id s -> id s + Z.of_nat (length l) < 2 ^ 63 ->
  forall (σ : gmap positive string) (m : gmap string positive),
    Forall (fun n => Name σ (Named_addr n) = Name (heap s') (Named_addr n)) l ->
    for_range (setName f) l (mkState (id s) m σ)
    = (Return tt, mkState (id s') m σ).
Proof.
  revert s. induction l as [| n l IH]; intros s Hrun Hlo Hhi σ m Hagree.
  - simpl in Hrun. inversion Hrun; subst. reflexivity.
  - simpl in Hrun. unfold bind in Hrun.
    rewrite length_cons, Nat2Z.inj_succ in Hhi.
    assert (Hincr : incr (id s) = id s + 1) by (apply incr_small; lia).
    apply Forall_cons in Hagree as [Hhead Hrest].
    simpl. unfold bind.
    destruct (setName_cases f n s)
      as [(Hun & Hstep) | [(Hid & Heq & Hstep) | [(Hid & Hneq & Hstep)
         | (Hne & Hid & Hstep)]]]; rewrite Hstep in Hrun.
    + assert (Hfinal : Name (heap s') (Named_addr n) = strconv_Itoa (id s)).
      { rewrite (for_range_setName_keeps _ _ _ _ _ _ Hrun); simpl;
          rewrite Name_insert_eq; [reflexivity | apply strconv_Itoa_nonempty]. }
      rewrite (setName_numeric_match f n (mkState (id s) m σ)); simpl.
      * apply (IH _ Hrun); simpl; [lia | lia | exact Hrest].
      * rewrite Hhead, Hfinal. apply strconv_Itoa_isLocalID. exact Hlo.
      * rewrite Hhead, Hfinal. reflexivity.
    + assert (Hfinal : Name (heap s') (Named_addr n) = strconv_Itoa (id s)).
      { rewrite (for_range_setName_keeps _ _ _ _ _ _ Hrun); simpl;
          [exact Heq | rewrite Heq; apply strconv_Itoa_nonempty]. }
      rewrite (setName_numeric_match f n (mkState (id s) m σ)); simpl.
      * apply (IH _ Hrun); simpl; [lia | lia | exact Hrest].
      * rewrite Hhead, Hfinal. apply strconv_Itoa_isLocalID. exact Hlo.
      * rewrite Hhead, Hfinal. reflexivity.
    + discriminate Hrun.
    + assert (Hfinal : Name (heap s') (Named_addr n)
                       = Name (heap s) (Named_addr n)).
      { apply (for_range_setName_keeps _ _ _ _ _ _ Hrun). exact Hne. }
      rewrite (setName_named f n (mkState (id s) m σ)); simpl.
      * apply (IH _ Hrun); [lia | lia | exact Hrest].
      * rewrite Hhead, Hfinal. exact Hne.
      * rewrite Hhead, Hfinal. exact Hid.
Qed.

(** A run over distinct unnamed entities. *)
Lemma for_range_setName_fresh (f : Function.t) (l : list Named) (s : state) :
  NoDup (map Named_addr l) ->
  Forall (fun n => Name (heap s) (Named_addr n) = "") l ->
  0 <= id s -> id s + Z.of_nat (length l) < 2 ^ 63 ->
  exists s',
    for_range (setName f) l s = (Return tt, s')
    /\ id s' = id s + Z.of_nat (length l)
    /\ (forall (i : nat) (n : Named),
          l !! i = Some n ->
          Name (heap s') (Named_addr n) = strconv_Itoa (id s + Z.of_nat i))
    /\ (forall a : positive,
          a ∉ map Named_addr l -> heap s' !! a = heap s !! a).
Proof.
  revert s. induction l as [| n l IH]; intros s Hdup Hall Hlo Hhi.
  - exists s. split; [reflexivity |]. split; [simpl; lia |].
    split; [intros i n Hi; discriminate Hi | reflexivity].
  - simpl map in Hdup. apply NoDup_cons in Hdup as [Hnotin Hdup].
    apply Forall_cons in Hall as [Hhead Hrest].
    rewrite length_cons, Nat2Z.inj_succ in Hhi.
    assert (Hincr : incr (id s) = id s + 1) by (apply incr_small; lia).
    pose (s1 := mkState (incr (id s))
                  (<[strconv_Itoa (id s) := Named_addr n]> (names s))
                  (<[Named_addr n := strconv_Itoa (id s)]> (heap s))).
    destruct (IH s1) as (s' & Hrun & Hid & Hnames & Hother).
    + exact Hdup.
    + apply Forall_forall. intros n' Hin. simpl.
      rewrite Name_insert_ne.
      * revert n' Hin. apply Forall_forall. exact Hrest.
      * intros Heq. apply Hnotin. rewrite Heq.
        apply list_elem_of_fmap. exists n'. split; [reflexivity | exact Hin].
    + simpl. lia.
    + simpl. lia.
    + exists s'. simpl. unfold bind.
      rewrite (setName_unnamed _ _ _ Hhead). fold s1.
      split; [exact Hrun |]. split; [rewrite Hid; simpl; lia |]. split.
      * intros [| i] n' Hi; simpl in Hi.
        -- inversion Hi; subst n'.
           rewrite (for_range_setName_keeps _ _ _ _ _ _ Hrun); simpl;
             rewrite Name_insert_eq;
             [f_equal; lia | apply strconv_Itoa_nonempty].
        -- rewrite (Hnames i n' Hi). simpl. f_equal. lia.
      * intros a Ha. rewrite Hother.
        -- simpl. apply lookup_insert_ne. intros Heq. apply Ha.
           rewrite <- Heq. simpl. left.
        -- intros Hin. apply Ha. simpl. right. exact Hin.
Qed.

End NumberingMore.

(** X1: whatever [AssignIDs] returns, an entity that carried a name
    before the call, or that is not in the traversal order, has the same
    name after it; on a function without blocks the call returns no
    error and leaves every name as it was, unnamed parameters included. *)
Theorem AssignIDs_keeps_names {C : Collaborators} (f : Function.t)
    (σ σ' : gmap positive string) (r : option string) :
  AssignIDs f σ = (r, σ') ->
  (Function.Blocks f = [] -> r = None /\ σ' = σ)
  /\ (forall a : positive,
        a ∉ map Named_addr (visit_order f) \/ Name σ a <> "" ->
        σ' !! a = σ !! a).
Proof.
  intros Hcall. split.
  - intros Hnil. rewrite (AssignIDs_declaration _ _ Hnil) in Hcall.
    inversion Hcall; subst. split; reflexivity.
  - intros a Hcases.
    destruct (decide (Function.Blocks f = [])) as [Hnil | Hblocks].
    + rewrite (AssignIDs_declaration _ _ Hnil) in Hcall.
      inversion Hcall; subst. reflexivity.
    + rewrite (AssignIDs_definition _ _ Hblocks) in Hcall.
      destruct (for_range (setName f) (visit_order f) (mkState 0 ∅ σ))
        as [r0 s'] eqn:Hrun.
      unfold finish in Hcall. simpl in Hcall. inversion Hcall; subst.
      apply (for_range_setName_other _ _ _ _ _ _ Hrun). exact Hcases.
Qed.

Lemma AssignIDs_keeps_names_witness :
  ({[ 1%positive := "0"; 2%positive := "x"; 3%positive := "1";
      4%positive := "2"; 5%positive := "5" ]} : gmap positive string)
    !! 2%positive
  = example_store_mismatch !! 2%positive.
Proof.
  apply (@AssignIDs_keeps_names example_collaborators example_function
           example_store_mismatch
           {[ 1%positive := "0"; 2%positive := "x"; 3%positive := "1";
              4%positive := "2"; 5%positive := "5" ]}
           (Some ("invalid local ID in function "
                  +:+ double_quote +:+ "@f" +:+ double_quote
                  +:+ ", expected %3, got %5"))).
  - vm_compute. reflexivity.
  - right. vm_compute. discriminate.
Defined.

(** X2: on a function with at least one block whose visited entities
    are pairwise distinct and all unnamed, [AssignIDs] returns no error
    and names the entity at position [i] of the traversal order after
    [i]; no other name changes. *)
Theorem AssignIDs_fresh {C : Collaborators} (f : Function.t)
    (σ : gmap positive string) :
  Function.Blocks f <> [] ->
  NoDup (map Named_addr (visit_order f)) ->
  Forall (fun n => Name σ (Named_addr n) = "") (visit_order f) ->
  Z.of_nat (length (visit_order f)) < 2 ^ 63 ->
  exists σ' : gmap positive string,
    AssignIDs f σ = (None, σ')
    /\ (forall (i : nat) (n : Named),
          visit_order f !! i = Some n ->
          Name σ' (Named_addr n) = strconv_Itoa (Z.of_nat i))
    /\ (forall a : positive,
          a ∉ map Named_addr (visit_order f) -> σ' !! a = σ !! a).
Proof.
  intros Hblocks Hdup Hall Hlen.
  destruct (for_range_setName_fresh f (visit_order f) (mkState 0 ∅ σ))
    as (s' & Hrun & _ & Hnames & Hother); simpl; try assumption; try lia.
  exists (heap s'). rewrite (AssignIDs_definition _ _ Hblocks), Hrun.
  split; [reflexivity |]. split.
  - intros i n Hi. rewrite (Hnames i n Hi). reflexivity.
  - exact Hother.
Qed.

Lemma AssignIDs_fresh_witness :
  exists σ' : gmap positive string,
    @AssignIDs example_collaborators fresh_function ∅ = (None, σ')
    /\ (forall (i : nat) (n : Named),
          visit_order fresh_function !! i = Some n ->
          Name σ' (Named_addr n) = strconv_Itoa (Z.of_nat i))
    /\ (forall a : positive,
          a ∉ map Named_addr (visit_order fresh_function) ->
          σ' !! a = (∅ : gmap positive string) !! a).
Proof.
  apply (@AssignIDs_fresh example_collaborators fresh_function ∅).
  - discriminate.
  - apply (bool_decide_unpack _). vm_compute. exact I.
  - repeat constructor.
  - vm_compute. reflexivity.
Defined.

(** X3: when [AssignIDs] returns no error on a function with blocks,
    no visited entity is left unnamed, and the visited entities that
    carry a numeric name carry, in traversal order, the numbers 0, 1, 2
    and so on without gap or repetition. *)
Theorem AssignIDs_sequential {C : Collaborators} (f : Function.t)
    (σ σ' : gmap positive string) :
  AssignIDs f σ = (None, σ') ->
  Function.Blocks f <> [] ->
  Z.of_nat (length (visit_order f)) < 2 ^ 63 ->
  Forall (fun n => Name σ' (Named_addr n) <> "") (visit_order f)
  /\ exists m : Z,
       0 <= m <= Z.of_nat (length (visit_order f))
       /\ names_in σ' (numbered σ' (visit_order f))
          = map strconv_Itoa (seqZ 0 m).
Proof.
  intros Hcall Hblocks Hlen.
  destruct (AssignIDs_success _ _ _ Hblocks Hcall) as (s' & Hrun & <-).
  destruct (for_range_setName_numbers _ _ _ _ Hrun)
    as (Hbound & Hall & Hnames); simpl; try lia.
  simpl in Hbound, Hnames. split; [exact Hall |].
  exists (id s'). split; [lia |].
  rewrite Hnames. f_equal. f_equal. lia.
Qed.

Lemma AssignIDs_sequential_witness :
  names_in
    {[ 1%positive := "0"; 2%positive := "x"; 3%positive := "1";
       4%positive := "2"; 5%positive := "3" ]}
    (numbered
       {[ 1%positive := "0"; 2%positive := "x"; 3%positive := "1";
          4%positive := "2"; 5%positive := "3" ]}
       (visit_order example_function))
  = ["0"; "1"; "2"; "3"].
Proof.
  destruct (@AssignIDs_sequential example_collaborators example_function
              example_store
              {[ 1%positive := "0"; 2%positive := "x"; 3%positive := "1";
                 4%positive := "2"; 5%positive := "3" ]})
    as (_ & m & _ & Hnames).
  - vm_compute. reflexivity.
  - discriminate.
  - vm_compute. reflexivity.
  - vm_compute. reflexivity.
Defined.

(** X4: [AssignIDs] is idempotent on success: when it returns no error,
    a second call on the store it left returns no error and changes no
    name. *)
Theorem AssignIDs_idempotent {C : Collaborators} (f : Function.t)
    (σ σ' : gmap positive string) :
  AssignIDs f σ = (None, σ') ->
  Z.of_nat (length (visit_order f)) < 2 ^ 63 ->
  AssignIDs f σ' = (None, σ').
Proof.
  intros Hcall Hlen.
  destruct (decide (Function.Blocks f = [])) as [Hnil | Hblocks].
  { apply AssignIDs_declaration. exact Hnil. }
  destruct (AssignIDs_success _ _ _ Hblocks Hcall) as (s' & Hrun & <-).
  rewrite (AssignIDs_definition _ _ Hblocks).
  rewrite (for_range_setName_replay _ _ _ _ Hrun); simpl; try lia.
  - reflexivity.
  - apply Forall_forall. intros n _. reflexivity.
Qed.

Lemma AssignIDs_idempotent_witness :
  @AssignIDs example_collaborators example_function
    {[ 1%positive := "0"; 2%positive := "x"; 3%positive := "1";
       4%positive := "2"; 5%positive := "3" ]}
  = (None,
     {[ 1%positive := "0"; 2%positive := "x"; 3%positive := "1";
        4%positive := "2"; 5%positive := "3" ]}).
Proof.
  apply (@AssignIDs_idempotent example_collaborators example_function
           example_store).
  - vm_compute. reflexivity.
  - vm_compute. reflexivity.
Defined.

(** * Further properties of the memory instructions and of emission *)

(** X5: an instruction built by its constructor has an empty cache, so
    its type is read off its operands: an alloca and a getelementptr
    have the type pointer to their element type in the default address
    space, whatever the source address and the indices of the
    getelementptr are; a load and an atomicrmw on a pointer in any
    address space have the pointee type; a cmpxchg has the struct type of
    the type of its new value and [i1].  Each call fills the cache. *)
Theorem constructed_instruction_types :
  (forall elemType : types.Type_,
     InstAlloca.Type_ (NewAlloca elemType)
     = Ok (types.Pointer elemType 0,
           InstAlloca.set_Typ (Some (types.mkPointerType elemType 0))
             (NewAlloca elemType)))
  /\ (forall (elem : types.Type_) (space : N) (ident text : string),
        InstLoad.Type_
          (NewLoad (value.mkValue (types.Pointer elem space) ident text))
        = Ok (elem,
              InstLoad.set_Typ (Some elem)
                (NewLoad
                   (value.mkValue (types.Pointer elem space) ident text))))
  /\ (forall (ptr cmp new : value.Value)
             (success failure : enum.AtomicOrdering),
        InstCmpXchg.Type_ (NewCmpXchg ptr cmp new success failure)
        = Ok (types.Struct [value.Type_ new; types.Int 1],
              InstCmpXchg.set_Typ
                (Some (types.mkStructType [value.Type_ new; types.Int 1]))
                (NewCmpXchg ptr cmp new success failure)))
  /\ (forall (op : enum.AtomicOp) (elem : types.Type_) (space : N)
             (ident text : string) (x : value.Value)
             (ordering : enum.AtomicOrdering),
        InstAtomicRMW.Type_
          (NewAtomicRMW op
             (value.mkValue (types.Pointer elem space) ident text) x ordering)
        = Ok (elem,
              InstAtomicRMW.set_Typ (Some elem)
                (NewAtomicRMW op
                   (value.mkValue (types.Pointer elem space) ident text)
                   x ordering)))
  /\ (forall (elemType : types.Type_) (src : value.Value)
             (indices : list value.Value),
        InstGetElementPtr.Type_ (NewGetElementPtr elemType src indices)
        = Ok (types.Pointer elemType 0,
              InstGetElementPtr.set_Typ (Some (types.Pointer elemType 0))
                (NewGetElementPtr elemType src indices))).
Proof. repeat split. Qed.

Section ValueFacts.

Context {C : Collaborators}.

Lemma Sprintf_type_ident_renders {A T : Type}
    (Type_ : A -> result (types.Type_ * A)) (Ident : A -> string)
    (cache : A -> option T) (name : A -> string) :
  (forall (x x' : A) (ty : types.Type_),
     Type_ x = Ok (ty, x') ->
     name x' = name x
     /\ forall y : A, cache y = cache x' -> Type_ y = Ok (ty, y)) ->
  (forall x y : A, name x = name y -> Ident x = Ident y) ->
  renders_pair Type_ (Sprintf_type_ident Type_ Ident) Ident cache name.
Proof.
  intros Hperm Hident. unfold renders_pair, Sprintf_type_ident.
  split; [| split].
  - intros x v. destruct (Type_ x) as [[ty x'] | v']; split; intros Heq;
      inversion Heq; subst; reflexivity.
  - intros x x' ty Hcall. rewrite Hcall.
    destruct (Hperm _ _ _ Hcall) as [Hname _].
    rewrite (Hident x' x Hname). reflexivity.
  - intros x x' txt. destruct (Type_ x) as [[ty x1] |] eqn:Hcall;
      intros Heq; inversion Heq; subst; clear Heq.
    intros y Hcache Hname.
    destruct (Hperm _ _ _ Hcall) as [Hname1 Hstable].
    rewrite (Hstable y Hcache). rewrite (Hident y x'); [reflexivity |].
    congruence.
Qed.

End ValueFacts.

(** X6: the method [String] of a function and of each memory
    instruction with a result panics exactly when the type access
    panics; otherwise it returns the type, a space and the identifier,
    and leaves the type in the cache, so that rendering again gives the
    same text, also after the operands were assigned anew. *)
Theorem String_renders_type_and_ident {C : Collaborators} :
  renders_pair Function.Type_ Function_String Function_Ident
    Function.Typ Function.GlobalName
  /\ renders_pair InstAlloca.Type_ InstAlloca_String InstAlloca_Ident
       InstAlloca.Typ InstAlloca.LocalName
  /\ renders_pair InstLoad.Type_ InstLoad_String InstLoad_Ident
       InstLoad.Typ InstLoad.LocalName
  /\ renders_pair InstCmpXchg.Type_ InstCmpXchg_String InstCmpXchg_Ident
       InstCmpXchg.Typ InstCmpXchg.LocalName
  /\ renders_pair InstAtomicRMW.Type_ InstAtomicRMW_String
       InstAtomicRMW_Ident InstAtomicRMW.Typ InstAtomicRMW.LocalName
  /\ renders_pair InstGetElementPtr.Type_ InstGetElementPtr_String
       InstGetElementPtr_Ident InstGetElementPtr.Typ
       InstGetElementPtr.LocalName.
Proof.
  split; [| split; [| split; [| split; [| split]]]];
    apply Sprintf_type_ident_renders;
    try (intros x y Hname;
         unfold Function_Ident, InstAlloca_Ident, InstLoad_Ident,
           InstCmpXchg_Ident, InstAtomicRMW_Ident, InstGetElementPtr_Ident;
         rewrite Hname; reflexivity).
  - intros f f' ty. unfold Function.Type_.
    destruct (Function.Typ f) as [c |] eqn:Hc; intros Hcall;
      inversion Hcall; subst; clear Hcall; (split; [reflexivity |]).
    + rewrite Hc. intros y ->. reflexivity.
    + simpl. intros y ->. reflexivity.
  - intros i i' ty. unfold InstAlloca.Type_.
    destruct (InstAlloca.Typ i) as [c |] eqn:Hc; intros Hcall;
      inversion Hcall; subst; clear Hcall; (split; [reflexivity |]).
    + rewrite Hc. intros y ->. reflexivity.
    + simpl. intros y ->. reflexivity.
  - intros i i' ty. unfold InstLoad.Type_.
    destruct (InstLoad.Typ i) as [c |] eqn:Hc.
    + intros Hcall; inversion Hcall; subst; clear Hcall.
      split; [reflexivity |]. rewrite Hc. intros y ->. reflexivity.
    + destruct (types.as_PointerType _) as [p |]; intros Hcall;
        inversion Hcall; subst; clear Hcall.
      split; [reflexivity |]. simpl. intros y ->. reflexivity.
  - intros i i' ty. unfold InstCmpXchg.Type_.
    destruct (InstCmpXchg.Typ i) as [c |] eqn:Hc; intros Hcall;
      inversion Hcall; subst; clear Hcall; (split; [reflexivity |]).
    + rewrite Hc. intros y ->. reflexivity.
    + simpl. intros y ->. reflexivity.
  - intros i i' ty. unfold InstAtomicRMW.Type_.
    destruct (InstAtomicRMW.Typ i) as [c |] eqn:Hc.
    + intros Hcall; inversion Hcall; subst; clear Hcall.
      split; [reflexivity |]. rewrite Hc. intros y ->. reflexivity.
    + destruct (types.as_PointerType _) as [p |]; intros Hcall;
        inversion Hcall; subst; clear Hcall.
      split; [reflexivity |]. simpl. intros y ->. reflexivity.
  - intros i i' ty. unfold InstGetElementPtr.Type_.
    destruct (InstGetElementPtr.Typ i) as [c |] eqn:Hc; intros Hcall;
      inversion Hcall; subst; clear Hcall; (split; [reflexivity |]).
    + rewrite Hc. intros y ->. reflexivity.
    + simpl. intros y ->. reflexivity.
Qed.

Lemma String_renders_type_and_ident_witness :
  @InstLoad_String example_collaborators
    (InstLoad.set_Src (operand (pointer_to i64) "q")
       (InstLoad.set_Typ (Some i32)
          (InstLoad.SetName "v" (NewLoad (operand (pointer_to i32) "p")))))
  = Ok ("i32 %v",
        InstLoad.set_Src (operand (pointer_to i64) "q")
          (InstLoad.set_Typ (Some i32)
             (InstLoad.SetName "v"
                (NewLoad (operand (pointer_to i32) "p"))))).
Proof.
  destruct (@String_renders_type_and_ident example_collaborators)
    as (_ & _ & (_ & _ & Hstable) & _).
  apply (Hstable
           (InstLoad.SetName "v" (NewLoad (operand (pointer_to i32) "p")))
           (InstLoad.set_Typ (Some i32)
              (InstLoad.SetName "v"
                 (NewLoad (operand (pointer_to i32) "p"))))
           "i32 %v").
  - vm_compute. reflexivity.
  - reflexivity.
  - reflexivity.
Defined.

Lemma prefix_empty (s : string) : String.prefix "" s = true.
Proof. destruct s; reflexivity. Qed.

Section EmissionMore.

Context {C : Collaborators}.

Lemma prefix_declare (rest : string) :
  String.prefix "declare" ("declare" +:+ rest) = true
  /\ String.prefix "define" ("declare" +:+ rest) = false.
Proof.
  split; [| reflexivity].
  change (String.prefix "" rest = true). apply prefix_empty.
Qed.

Lemma prefix_define (rest : string) :
  String.prefix "define" ("define" +:+ rest) = true
  /\ String.prefix "declare" ("define" +:+ rest) = false.
Proof.
  split; [| reflexivity].
  change (String.prefix "" rest = true). apply prefix_empty.
Qed.

End EmissionMore.

(** X7: the keyword that opens the text of [Def] tells the two states of
    a function apart: the text begins with "declare" exactly when the
    function has no block, and with "define" exactly when it has one. *)
Theorem Def_keyword_tells_blocks {C : Collaborators}
    (σ : gmap positive string) (f : Function.t) :
  (String.prefix "declare" (Def σ f) = true <-> Function.Blocks f = [])
  /\ (String.prefix "define" (Def σ f) = true <-> Function.Blocks f <> []).
Proof.
  destruct (decide (Function.Blocks f = [])) as [Hnil | Hblocks].
  - rewrite (Def_declaration _ _ Hnil).
    destruct (prefix_declare (linkage_clause f +:+ headerString σ f))
      as [Hyes Hno].
    rewrite Hyes, Hno. split; split; intros Hany;
      (reflexivity || assumption || discriminate || congruence).
  - rewrite (Def_definition _ _ Hblocks).
    destruct (prefix_define
                (linkage_clause f +:+ headerString σ f +:+ " "
                 +:+ bodyString σ f)) as [Hyes Hno].
    rewrite Hyes, Hno. split; split; intros Hany;
      (reflexivity || assumption || discriminate || congruence).
Qed.

(** X8: an optional attribute that is absent writes nothing, not even a
    space: the header of a function without optional attributes is a
    space, the return type, a space, the global identifier and the
    parameter list between parentheses, and its declaration is the
    keyword "declare" followed by that header. *)
Theorem plain_function_header {C : Collaborators}
    (σ : gmap positive string) (sig : types.FuncType) (name : string)
    (params : list Param) (blocks : list BasicBlock) :
  headerString σ (plain_function sig name params blocks)
  = " " +:+ Type_String (types.RetType sig)
    +:+ " " +:+ enc_Global name
    +:+ "(" +:+ String.concat ", " (map (Param_Def σ) params)
    +:+ (if types.Variadic sig
         then (match params with [] => "" | _ :: _ => ", " end) +:+ "..."
         else "")
    +:+ ")"
  /\ Def σ (plain_function sig name params [])
     = "declare" +:+ headerString σ (plain_function sig name params []).
Proof.
  split.
  - rewrite headerString_parts.
    unfold header_front, header_back, params_text, plain_function. simpl.
    rewrite !append_assoc. reflexivity.
  - rewrite Def_declaration by reflexivity. reflexivity.
Qed.

(** X9: when a function has both a section and a garbage collector
    name, the header writes the section clause before the gc clause,
    with the comdat clause alone between them. *)
Theorem header_section_before_gc {C : Collaborators}
    (σ : gmap positive string) (hdr : Function.t) :
  Function.Section_ hdr <> "" ->
  Function.GC hdr <> "" ->
  exists before after : string,
    headerString σ hdr
    = before
      +:+ " section " +:+ enc_Quote (Function.Section_ hdr)
      +:+ comdat_clause hdr
      +:+ " gc " +:+ enc_Quote (Function.GC hdr)
      +:+ after.
Proof.
  intros Hsection Hgc.
  assert (Hlen : forall s : string,
            s <> "" -> Nat.ltb 0 (String.length s) = true).
  { intros s Hs. destruct s; [congruence | reflexivity]. }
  rewrite headerString_parts. unfold header_back, comdat_clause.
  rewrite (Hlen _ Hsection), (Hlen _ Hgc).
  eexists (header_front hdr +:+ "(" +:+ params_text σ hdr +:+ ")"
           +:+ (if negb (N.eqb (Function.UnnamedAddr hdr) enum.UnnamedAddrNone)
                then " " +:+ UnnamedAddr_String (Function.UnnamedAddr hdr)
                else "")
           +:+ String.concat ""
                 (map (fun attr => " " +:+ FuncAttribute_String attr)
                      (Function.FuncAttrs hdr))), _.
  rewrite !append_assoc. reflexivity.
Qed.

Lemma header_section_before_gc_witness :
  exists before after : string,
    @headerString example_collaborators ∅
      (Function.mk (types.mkFuncType types.Void [] false) "f" [] [] None
         enum.LinkageNone 0%N 0%N 0%N 0%N [] 0%N [] "text" None "shadow"
         None None None)
    = before +:+ " section " +:+ example_quote "text" +:+ ""
      +:+ " gc " +:+ example_quote "shadow" +:+ after.
Proof.
  apply (@header_section_before_gc example_collaborators ∅
           (Function.mk (types.mkFuncType types.Void [] false) "f" [] [] None
              enum.LinkageNone 0%N 0%N 0%N 0%N [] 0%N [] "text" None "shadow"
              None None None)); discriminate.
Defined.

(** X10: when [AssignIDs] returns no error on a function with blocks,
    no two visited entities share a numeric name: the numeric names of
    the visited entities are pairwise distinct, and so are the entities
    that carry them. *)
Theorem AssignIDs_numbers_unique {C : Collaborators} (f : Function.t)
    (σ σ' : gmap positive string) :
  AssignIDs f σ = (None, σ') ->
  Function.Blocks f <> [] ->
  Z.of_nat (length (visit_order f)) < 2 ^ 63 ->
  NoDup (names_in σ' (numbered σ' (visit_order f)))
  /\ NoDup (map Named_addr (numbered σ' (visit_order f))).
Proof.
  intros Hcall Hblocks Hlen.
  destruct (AssignIDs_success _ _ _ Hblocks Hcall) as (s' & Hrun & <-).
  destruct (for_range_setName_numbers _ _ _ _ Hrun)
    as (_ & _ & Hnames); simpl; try lia.
  assert (Hdup : NoDup (names_in (heap s')
                          (numbered (heap s') (visit_order f)))).
  { assert (Hinj : Inj (=) (=) strconv_Itoa).
    { intros x y Heq. apply (inj (pretty (A := Z))). exact Heq. }
    rewrite Hnames. apply (NoDup_fmap_2 strconv_Itoa), NoDup_seqZ. }
  split; [exact Hdup |].
  apply (NoDup_fmap_1 (Name (heap s'))).
  unfold names_in in Hdup. rewrite <- list_fmap_compose. exact Hdup.
Qed.

Lemma AssignIDs_numbers_unique_witness :
  NoDup (map Named_addr
           (numbered
              {[ 1%positive := "0"; 2%positive := "x"; 3%positive := "1";
                 4%positive := "2"; 5%positive := "3" ]}
              (visit_order example_function))).
Proof.
  apply (@AssignIDs_numbers_unique example_collaborators example_function
           example_store
           {[ 1%positive := "0"; 2%positive := "x"; 3%positive := "1";
              4%positive := "2"; 5%positive := "3" ]}).
  - vm_compute. reflexivity.
  - discriminate.
  - vm_compute. reflexivity.
Defined.

(** X11: a type access writes the cache and nothing else: when it
    returns, the receiver after the call is the receiver before it with
    the cache field replaced, the name, the operands and the flags being
    what they were. *)
Theorem type_access_writes_cache_only :
  (forall (f f' : Function.t) (ty : types.Type_),
     Function.Type_ f = Ok (ty, f') ->
     f' = Function.set_Typ (Function.Typ f') f)
  /\ (forall (i i' : InstAlloca.t) (ty : types.Type_),
        InstAlloca.Type_ i = Ok (ty, i') ->
        i' = InstAlloca.set_Typ (InstAlloca.Typ i') i)
  /\ (forall (i i' : InstLoad.t) (ty : types.Type_),
        InstLoad.Type_ i = Ok (ty, i') ->
        i' = InstLoad.set_Typ (InstLoad.Typ i') i)
  /\ (forall (i i' : InstCmpXchg.t) (ty : types.Type_),
        InstCmpXchg.Type_ i = Ok (ty, i') ->
        i' = InstCmpXchg.set_Typ (InstCmpXchg.Typ i') i)
  /\ (forall (i i' : InstAtomicRMW.t) (ty : types.Type_),
        InstAtomicRMW.Type_ i = Ok (ty, i') ->
        i' = InstAtomicRMW.set_Typ (InstAtomicRMW.Typ i') i)
  /\ (forall (i i' : InstGetElementPtr.t) (ty : types.Type_),
        InstGetElementPtr.Type_ i = Ok (ty, i') ->
        i' = InstGetElementPtr.set_Typ (InstGetElementPtr.Typ i') i).
Proof.
  split; [| split; [| split; [| split; [| split]]]].
  - intros f f' ty. unfold Function.Type_.
    destruct f as [? ? ? ? [c |]]; simpl; intros Hcall;
      inversion Hcall; subst; reflexivity.
  - intros i i' ty. unfold InstAlloca.Type_.
    destruct i as [? ? ? [c |]]; simpl; intros Hcall;
      inversion Hcall; subst; reflexivity.
  - intros i i' ty. unfold InstLoad.Type_.
    destruct i as [? src [c |]]; simpl.
    + intros Hcall; inversion Hcall; subst; reflexivity.
    + destruct (types.as_PointerType (value.Type_ src)); intros Hcall;
        inversion Hcall; subst; reflexivity.
  - intros i i' ty. unfold InstCmpXchg.Type_.
    destruct i as [? ? ? ? ? ? [c |]]; simpl; intros Hcall;
      inversion Hcall; subst; reflexivity.
  - intros i i' ty. unfold InstAtomicRMW.Type_.
    destruct i as [? ? dst ? ? [c |]]; simpl.
    + intros Hcall; inversion Hcall; subst; reflexivity.
    + destruct (types.as_PointerType (value.Type_ dst)); intros Hcall;
        inversion Hcall; subst; reflexivity.
  - intros i i' ty. unfold InstGetElementPtr.Type_.
    destruct i as [? ? ? ? [c |]]; simpl; intros Hcall;
      inversion Hcall; subst; reflexivity.
Qed.

Lemma type_access_writes_cache_only_witness :
  InstLoad.set_Typ (Some i32) (NewLoad (operand (pointer_to i32) "p"))
  = InstLoad.set_Typ
      (InstLoad.Typ
         (InstLoad.set_Typ (Some i32)
            (NewLoad (operand (pointer_to i32) "p"))))
      (NewLoad (operand (pointer_to i32) "p")).
Proof.
  destruct type_access_writes_cache_only as (_ & _ & Hload & _).
  apply (Hload (NewLoad (operand (pointer_to i32) "p"))
               (InstLoad.set_Typ (Some i32)
                  (NewLoad (operand (pointer_to i32) "p")))
               i32).
  reflexivity.
Defined.
